(** * QuipScript: interpreter, JIT, compiler and optimizing compiler

    A shallow embedding of the four JavaScript programs of the repository
    (the interpreter, [jit.js], [compiler.js] and the optimizing compiler)
    together with the fragment of JavaScript that their generated programs
    live in, and the properties of the written specification that can be
    settled on that embedding.

    Text is modelled by [string]: the bytes of its UTF-8 encoding.  The
    JavaScript programs test the first code unit ([line[0]]) against ASCII
    characters and concatenate; all characters the programs and the
    generated code treat specially are ASCII, and an ASCII byte never
    occurs inside the encoding of another character. *)

From Stdlib Require Import Ascii.
From stdpp Require Import gmap strings list.

(** ** Characters and text *)

Definition LF : ascii := "010"%char.
Definition CR : ascii := "013"%char.
Definition DQ : ascii := "034"%char.
Definition SQ : ascii := "'"%char.
Definition BSL : ascii := "\"%char.

(** The one-character text made of a line feed. *)
Definition nl : string := String LF EmptyString.

(** [line[0]]: the first code unit, [undefined] (here [None]) on the empty
    text. *)
Definition char_at0 (line : string) : option ascii :=
  match line with
  | EmptyString => None
  | String c _ => Some c
  end.

(** [line[0] == "c"]: [undefined] is loosely equal to no one-character
    text. *)
Definition loose_eq (v : option ascii) (c : ascii) : bool :=
  match v with
  | Some d => Ascii.eqb d c
  | None => false
  end.

(** [sourceCode.split("\r\n")]: the pieces between the occurrences of the
    two-character separator, scanned from the left; a text without the
    separator (the empty text too) is a single piece. *)
Fixpoint split_crlf (s : string) : list string :=
  match s with
  | EmptyString => [EmptyString]
  | String c s' =>
      match Ascii.eqb c CR, s' with
      | true, String d s'' =>
          if Ascii.eqb d LF then EmptyString :: split_crlf s''
          else match split_crlf s' with
               | piece :: pieces => String c piece :: pieces
               | [] => [String c EmptyString]
               end
      | _, _ =>
          match split_crlf s' with
          | piece :: pieces => String c piece :: pieces
          | [] => [String c EmptyString]
          end
      end
  end.

(** The inverse of [split]: [pieces.join("\r\n")]. *)
Fixpoint join_crlf (pieces : list string) : string :=
  match pieces with
  | [] => EmptyString
  | [piece] => piece
  | piece :: rest => piece +:+ String CR (String LF (join_crlf rest))
  end.

(** ** The world the programs run in *)

(** What a run can observe and change: the lines written by [console.log],
    oldest first, and the files on disk by path. *)
Record World := mkWorld {
  console : list string;
  files : gmap string string
}.

(** Values thrown by the programs and by the runtime. *)
Inductive JsError :=
| Error (message : string)          (* new Error(message) *)
| SyntaxError                       (* thrown by the parser *)
| ReferenceError (name : string)    (* use of an undeclared variable *)
| ENOENT (path : string).           (* readFileSync on a missing file *)

Inductive Completion :=
| Normal
| Throw (e : JsError).

Definition console_log (text : string) (w : World) : World :=
  mkWorld (console w ++ [text]) (files w).

Definition writeFileSync (path data : string) (w : World) : World :=
  mkWorld (console w) (<[path := data]> (files w)).

Definition readFileSync (path : string) (w : World) : JsError + string :=
  match files w !! path with
  | Some data => inr data
  | None => inl (ENOENT path)
  end.

(** [lines.forEach(callback)] over a state [S] that the callback reads and
    writes: the callback runs on each line in order, and a throw leaves the
    loop at once with the state reached so far. *)
Fixpoint forEach {S : Type} (lines : list string)
    (callback : string -> S -> Completion * S) (st : S) : Completion * S :=
  match lines with
  | [] => (Normal, st)
  | line :: rest =>
      match callback line st with
      | (Normal, st') => forEach rest callback st'
      | (Throw e, st') => (Throw e, st')
      end
  end.

(** The error thrown on a line that starts with [t]. *)
Definition invalid_line_error : JsError := Error "ERROR I AM AN INVALID LINE".

(** ** Statements *)

(** The four kinds of line that every program of the repository tells
    apart with the same chain of tests on [line[0]]. *)
Inductive Statement :=
| Comment
| Emit (payload : string)
| Print
| Invalid.

Definition classify (line : string) : Statement :=
  if loose_eq (char_at0 line) "p" then Print
  else if loose_eq (char_at0 line) "t" then Invalid
  else if loose_eq (char_at0 line) "#" then Comment
  else Emit line.

(** ** The interpreter *)

(** State of the loop: the variable [string] and the world. *)
Definition interpreter_callback (line : string) (st : string * World)
  : Completion * (string * World) :=
  if loose_eq (char_at0 line) "p" then
    (Normal, (st.1, console_log st.1 st.2))
  else if loose_eq (char_at0 line) "t" then
    (Throw invalid_line_error, st)
  else if loose_eq (char_at0 line) "#" then
    (Normal, st)
  else
    (Normal, (st.1 +:+ line, st.2)).

Definition interpret (lines : list string) (w : World) : Completion * World :=
  let r := forEach lines interpreter_callback (EmptyString, w) in
  (r.1, r.2.2).

(** The whole program.  [sourceCodeFile] is a constant of each program
    ([./error.qs] for the interpreter and the JIT, [./hello-world.qs] for
    the two compilers); it is a parameter here. *)
Definition interpreter_js (sourceCodeFile : string) (w : World)
  : Completion * World :=
  match readFileSync sourceCodeFile w with
  | inl e => (Throw e, w)
  | inr sourceCode => interpret (split_crlf sourceCode) w
  end.

(** ** The compiler, the JIT and the optimizing compiler *)

(** The first line of every program the compiler and the JIT generate:
    [let string = ""] and a line feed. *)
Definition prelude : string := "let string = " +:+ String DQ (String DQ nl).

(** [compiler.js]; state of the loop: the variable [program]. *)
Definition compiler_callback (line : string) (program : string)
  : Completion * string :=
  if loose_eq (char_at0 line) "p" then
    (Normal, program +:+ ("console.log(string)" +:+ nl))
  else if loose_eq (char_at0 line) "t" then
    (Throw invalid_line_error, program)
  else if loose_eq (char_at0 line) "#" then
    (Normal, program)
  else
    (Normal, program +:+ ("string += '" +:+ line +:+ "'" +:+ nl)).

Definition compile (lines : list string) : Completion * string :=
  forEach lines compiler_callback prelude.

Definition compiler_js (sourceCodeFile : string) (w : World)
  : Completion * World :=
  match readFileSync sourceCodeFile w with
  | inl e => (Throw e, w)
  | inr sourceCode =>
      match compile (split_crlf sourceCode) with
      | (Normal, program) => (Normal, writeFileSync "./output.js" program w)
      | (Throw e, _) => (Throw e, w)
      end
  end.

(** The optimizing compiler; state of the loop: the variables [program]
    and [string]. *)
Definition optimizer_callback (line : string) (st : string * string)
  : Completion * (string * string) :=
  if loose_eq (char_at0 line) "p" then
    (Normal, (st.1 +:+ ("console.log('" +:+ st.2 +:+ "')" +:+ nl), st.2))
  else if loose_eq (char_at0 line) "t" then
    (Throw invalid_line_error, st)
  else if loose_eq (char_at0 line) "#" then
    (Normal, st)
  else
    (Normal, (st.1, st.2 +:+ line)).

Definition compileOptimized (lines : list string) : Completion * string :=
  let r := forEach lines optimizer_callback (EmptyString, EmptyString) in
  (r.1, r.2.1).

Definition optimizing_compiler_js (sourceCodeFile : string) (w : World)
  : Completion * World :=
  match readFileSync sourceCodeFile w with
  | inl e => (Throw e, w)
  | inr sourceCode =>
      match compileOptimized (split_crlf sourceCode) with
      | (Normal, program) =>
          (Normal, writeFileSync "./optimized-output.js" program w)
      | (Throw e, _) => (Throw e, w)
      end
  end.

(** ** The generated programs as JavaScript *)

(** The statements the generated programs are made of. *)
Inductive Instruction :=
| LetString                        (* let string = ""       *)
| AppendLiteral (text : string)    (* string += '...'       *)
| PrintCurrent                     (* console.log(string)   *)
| PrintLiteral (text : string).    (* console.log('...')    *)

(** What follows a backslash inside a string literal. *)
Inductive Escape :=
| EscChar (c : ascii)
| EscLineContinuation
| EscUnmodelled.

(** Single escape characters stand for a control character or themselves,
    a line terminator after the backslash continues the literal on the
    next line, any other ASCII character except a digit, [x] and [u]
    stands for itself.  Numeric, hexadecimal and Unicode escapes are left
    out, and so is a backslash before a code unit above 127: it may start
    the encoding of one of the line terminators U+2028 and U+2029, which
    continue the literal. *)
Definition escape (e : ascii) : Escape :=
  if Ascii.eqb e "b" then EscChar "008"
  else if Ascii.eqb e "t" then EscChar "009"
  else if Ascii.eqb e "n" then EscChar "010"
  else if Ascii.eqb e "v" then EscChar "011"
  else if Ascii.eqb e "f" then EscChar "012"
  else if Ascii.eqb e "r" then EscChar "013"
  else if Ascii.eqb e LF || Ascii.eqb e CR then EscLineContinuation
  else if Ascii.eqb e "x" || Ascii.eqb e "u" then EscUnmodelled
  else if (48 <=? nat_of_ascii e) && (nat_of_ascii e <=? 57) then EscUnmodelled
  else if 128 <=? nat_of_ascii e then EscUnmodelled
  else EscChar e.

Inductive LitScan :=
| LitDone (value rest : string)
| LitUnterminated
| LitUnmodelled.

Definition lit_cons (c : ascii) (r : LitScan) : LitScan :=
  match r with
  | LitDone value rest => LitDone (String c value) rest
  | other => other
  end.

(** Reads a single-quoted string literal from just after its opening
    quote: the value it denotes and the text after its closing quote.  A
    line terminator or the end of the text inside the literal is a syntax
    error. *)
Fixpoint scan_literal (s : string) : LitScan :=
  match s with
  | EmptyString => LitUnterminated
  | String c s' =>
      if Ascii.eqb c SQ then LitDone EmptyString s'
      else if Ascii.eqb c LF || Ascii.eqb c CR then LitUnterminated
      else if Ascii.eqb c BSL then
        match s' with
        | EmptyString => LitUnterminated
        | String e s'' =>
            match escape e with
            | EscChar x => lit_cons x (scan_literal s'')
            | EscLineContinuation =>
                match Ascii.eqb e CR, s'' with
                | true, String d s''' =>
                    if Ascii.eqb d LF then scan_literal s'''
                    else scan_literal s''
                | _, _ => scan_literal s''
                end
            | EscUnmodelled => LitUnmodelled
            end
        end
      else lit_cons c (scan_literal s')
  end.

(** Characters that, outside a literal, can only be part of an identifier,
    a number, white space or one of the punctuators [( ) + = ; . ,]. *)
Definition plain_token_char (c : ascii) : bool :=
  let n := nat_of_ascii c in
  ((97 <=? n) && (n <=? 122)) || ((65 <=? n) && (n <=? 90))
  || ((48 <=? n) && (n <=? 57))
  || Ascii.eqb c "_" || Ascii.eqb c "$" || Ascii.eqb c " "
  || Ascii.eqb c "(" || Ascii.eqb c ")" || Ascii.eqb c "+"
  || Ascii.eqb c "=" || Ascii.eqb c ";" || Ascii.eqb c "." || Ascii.eqb c ",".

(** Scans the rest of a line from a point where the scanner is outside
    ([in_literal = false]) or inside a single-quoted literal: [true] when a
    literal is certainly left open at the end of the line, which no
    JavaScript program survives; [false] when that is not certain. *)
Fixpoint leaves_literal_open (in_literal : bool) (s : string) : bool :=
  match s with
  | EmptyString => in_literal
  | String c s' =>
      if in_literal then
        if Ascii.eqb c SQ then leaves_literal_open false s'
        else if Ascii.eqb c LF || Ascii.eqb c CR then true
        else if Ascii.eqb c BSL then
          match s' with
          | EmptyString => true
          | String e s'' =>
              if Ascii.eqb e CR then false
              else leaves_literal_open true s''
          end
        else leaves_literal_open true s'
      else
        if Ascii.eqb c SQ then leaves_literal_open true s'
        else if plain_token_char c then leaves_literal_open false s'
        else false
  end.

(** [strip_prefix p s]: the text after [p] when [s] starts with [p]. *)
Fixpoint strip_prefix (p s : string) : option string :=
  match p with
  | EmptyString => Some s
  | String a p' =>
      match s with
      | EmptyString => None
      | String b s' => if Ascii.eqb a b then strip_prefix p' s' else None
      end
  end.

(** The result of reading a program text: its statements, a certain syntax
    error, or a text outside the fragment described here, about which
    nothing is said. *)
Inductive JsParse :=
| Parsed (body : list Instruction)
| ParseError
| Unmodelled.

Definition parse_cons (i : Instruction) (r : JsParse) : JsParse :=
  match r with
  | Parsed body => Parsed (i :: body)
  | other => other
  end.

(** A statement that ends with a string literal: [body] starts just after
    the opening quote, [closing] is what must follow the closing quote,
    [continue] reads the statements after it. *)
Definition literal_statement (mk : string -> Instruction) (closing : string)
    (continue : string -> JsParse) (body : string) : JsParse :=
  match scan_literal body with
  | LitDone value rest =>
      match strip_prefix closing rest with
      | Some rest' => parse_cons (mk value) (continue rest')
      | None => if leaves_literal_open false rest then ParseError else Unmodelled
      end
  | LitUnterminated => ParseError
  | LitUnmodelled => Unmodelled
  end.

(** Reads one statement of one of the three shapes the generators write,
    each on a line of its own; [continue] reads the statements after it. *)
Definition statement (continue : string -> JsParse) (s : string) : JsParse :=
  match strip_prefix ("console.log(string)" +:+ nl) s with
  | Some rest => parse_cons PrintCurrent (continue rest)
  | None =>
      match strip_prefix "string += '" s with
      | Some body => literal_statement AppendLiteral nl continue body
      | None =>
          match strip_prefix "console.log('" s with
          | Some body =>
              literal_statement PrintLiteral (")" +:+ nl) continue body
          | None => Unmodelled
          end
      end
  end.

(** Reads the statements of a text up to its end.  Every statement read
    consumes one unit of [fuel]. *)
Fixpoint parse_statements (fuel : nat) (s : string) : JsParse :=
  match fuel with
  | 0 => Unmodelled
  | S fuel' =>
      match s with
      | EmptyString => Parsed []
      | _ => statement (parse_statements fuel') s
      end
  end.

(** A program text: an optional declaration of [string] on the first line,
    then statements.  A statement takes at least one character, so the
    length of the text is fuel enough. *)
Definition parse_program (text : string) : JsParse :=
  match strip_prefix prelude text with
  | Some rest =>
      parse_cons LetString (parse_statements (S (String.length rest)) rest)
  | None => parse_statements (S (String.length text)) text
  end.

(** Runs statements in order; [var] is the variable [string], [None]
    before its declaration. *)
Fixpoint exec (body : list Instruction) (var : option string) (w : World)
  : Completion * World :=
  match body with
  | [] => (Normal, w)
  | LetString :: rest => exec rest (Some EmptyString) w
  | AppendLiteral text :: rest =>
      match var with
      | Some s => exec rest (Some (s +:+ text)) w
      | None => (Throw (ReferenceError "string"), w)
      end
  | PrintCurrent :: rest =>
      match var with
      | Some s => exec rest var (console_log s w)
      | None => (Throw (ReferenceError "string"), w)
      end
  | PrintLiteral text :: rest => exec rest var (console_log text w)
  end.

(** [eval(program)]: the whole text is parsed before anything runs, so a
    syntax error prints nothing.  [None]: the text is outside the
    fragment. *)
Definition eval (program : string) (w : World) : option (Completion * World) :=
  match parse_program program with
  | Parsed body => Some (exec body None w)
  | ParseError => Some (Throw SyntaxError, w)
  | Unmodelled => None
  end.

(** [node path]: runs a generated program saved on disk. *)
Definition node (path : string) (w : World) : option (Completion * World) :=
  match readFileSync path w with
  | inl e => Some (Throw e, w)
  | inr program => eval program w
  end.

(** [jit.js]; state of the loop: the variable [program]. *)
Definition jit_callback (line : string) (program : string)
  : Completion * string :=
  if loose_eq (char_at0 line) "p" then
    (Normal, program +:+ ("console.log(string)" +:+ nl))
  else if loose_eq (char_at0 line) "t" then
    (Throw invalid_line_error, program)
  else if loose_eq (char_at0 line) "#" then
    (Normal, program)
  else
    (Normal, program +:+ ("string += '" +:+ line +:+ "'" +:+ nl)).

Definition jitRun (lines : list string) (w : World)
  : option (Completion * World) :=
  match forEach lines jit_callback prelude with
  | (Normal, program) => eval program w
  | (Throw e, _) => Some (Throw e, w)
  end.

Definition jit_js (sourceCodeFile : string) (w : World)
  : option (Completion * World) :=
  match readFileSync sourceCodeFile w with
  | inl e => Some (Throw e, w)
  | inr sourceCode => jitRun (split_crlf sourceCode) w
  end.


(** ** Programs as the specification reads them *)

Definition is_invalid (s : Statement) : bool :=
  match s with Invalid => true | _ => false end.

Definition is_print (s : Statement) : bool :=
  match s with Print => true | _ => false end.

(** A valid program has no line classified [Invalid]. *)
Definition valid (lines : list string) : Prop :=
  forallb (fun line => negb (is_invalid (classify line))) lines = true.

(** A program without [Print] statements. *)
Definition no_print (lines : list string) : Prop :=
  forallb (fun line => negb (is_print (classify line))) lines = true.

(** The text of a payload is spliced between single quotes as it is.  The
    characters that end a literal or change its meaning are the quote, the
    backslash and the two line terminators. *)
Definition plain_char (c : ascii) : bool :=
  negb (Ascii.eqb c SQ || Ascii.eqb c BSL || Ascii.eqb c LF || Ascii.eqb c CR).

Fixpoint plain_text (s : string) : bool :=
  match s with
  | EmptyString => true
  | String c s' => plain_char c && plain_text s'
  end.

Definition plain_payload (line : string) : bool :=
  match classify line with
  | Emit payload => plain_text payload
  | _ => true
  end.

Definition plain_payloads (lines : list string) : Prop :=
  forallb plain_payload lines = true.

(** The payloads of the [Emit] statements, concatenated in order: the
    value of the string state after the program. *)
Fixpoint payload_text (lines : list string) : string :=
  match lines with
  | [] => EmptyString
  | line :: rest =>
      match classify line with
      | Emit payload => payload +:+ payload_text rest
      | _ => payload_text rest
      end
  end.

(** What the specification expects a run to print: for each [Print]
    statement, at position [i], the payloads of the [Emit] statements among
    the first [i] statements. *)
Definition expected_prints (lines : list string) : list string :=
  map (fun i => payload_text (take i lines))
    (List.filter (fun i => is_print (classify (nth i lines EmptyString)))
       (seq 0 (length lines))).

(** The number of [Print] statements. *)
Definition count_prints (lines : list string) : nat :=
  length (List.filter (fun line => is_print (classify line)) lines).

(** The 1-based line number of the first [Invalid] statement. *)
Fixpoint first_invalid (lines : list string) : option nat :=
  match lines with
  | [] => None
  | line :: rest =>
      if is_invalid (classify line) then Some 1
      else option_map S (first_invalid rest)
  end.

(** Statement lists as text, the way the generators write them. *)
Definition render_instruction (i : Instruction) : string :=
  match i with
  | LetString => prelude
  | AppendLiteral text => "string += '" +:+ text +:+ "'" +:+ nl
  | PrintCurrent => "console.log(string)" +:+ nl
  | PrintLiteral text => "console.log('" +:+ text +:+ "')" +:+ nl
  end.

Fixpoint render (body : list Instruction) : string :=
  match body with
  | [] => EmptyString
  | i :: rest => render_instruction i +:+ render rest
  end.

(** The statement-by-statement translation of the compiler and the JIT. *)
Fixpoint translate (lines : list string) : list Instruction :=
  match lines with
  | [] => []
  | line :: rest =>
      match classify line with
      | Emit payload => AppendLiteral payload :: translate rest
      | Print => PrintCurrent :: translate rest
      | _ => translate rest
      end
  end.

(** The folded translation of the optimizing compiler, from the string
    state [current]. *)
Fixpoint fold_prints (current : string) (lines : list string)
  : list Instruction :=
  match lines with
  | [] => []
  | line :: rest =>
      match classify line with
      | Emit payload => fold_prints (current +:+ payload) rest
      | Print => PrintLiteral current :: fold_prints current rest
      | _ => fold_prints current rest
      end
  end.

Definition is_print_literal (i : Instruction) : bool :=
  match i with PrintLiteral _ => true | _ => false end.

(** Text [s] is a prefix of text [t]. *)
Definition text_prefix (s t : string) : Prop := exists u, t = s +:+ u.

(** Each element is a prefix of every later one. *)
Fixpoint prefix_chain (l : list string) : Prop :=
  match l with
  | [] => True
  | s :: rest => Forall (text_prefix s) rest /\ prefix_chain rest
  end.

(** The payload a line adds to the string state. *)
Definition payload_of (line : string) : string :=
  match classify line with
  | Emit payload => payload
  | _ => EmptyString
  end.

(** The world after some more lines were printed. *)
Definition add_output (w : World) (out : list string) : World :=
  mkWorld (console w ++ out) (files w).

(** Statements whose literal, if any, is plain text; the declaration of
    [string] is not one of them: it only opens a program. *)
Definition plain_instruction (i : Instruction) : bool :=
  match i with
  | LetString => false
  | AppendLiteral text => plain_text text
  | PrintCurrent => true
  | PrintLiteral text => plain_text text
  end.

(** The kind of a statement, without its payload. *)
Inductive Kind := KComment | KEmit | KPrint | KInvalid.

Definition kind (s : Statement) : Kind :=
  match s with
  | Comment => KComment
  | Emit _ => KEmit
  | Print => KPrint
  | Invalid => KInvalid
  end.

(** The kind as a function of [line[0]] alone. *)
Definition kind_of_first (first : option ascii) : Kind :=
  if loose_eq first "p" then KPrint
  else if loose_eq first "t" then KInvalid
  else if loose_eq first "#" then KComment
  else KEmit.

(** A world with an empty console and an empty disk. *)
Definition empty_world : World := mkWorld [] ∅.

(** ** Further notions *)

(** The separator of [split]. *)
Definition crlf : string := String CR (String LF EmptyString).

(** [s] holds a carriage return followed at once by a line feed. *)
Fixpoint has_crlf (s : string) : bool :=
  match s with
  | EmptyString => false
  | String c s' =>
      (Ascii.eqb c CR
       && match s' with
          | String d _ => Ascii.eqb d LF
          | EmptyString => false
          end)
      || has_crlf s'
  end.

Definition is_comment (s : Statement) : bool :=
  match s with Comment => true | _ => false end.

(** The program without its comment lines. *)
Definition strip_comments (lines : list string) : list string :=
  List.filter (fun line => negb (is_comment (classify line))) lines.

(** A program made of [Emit] and [Print] statements only. *)
Definition emit_or_print (lines : list string) : Prop :=
  forallb (fun line =>
             match classify line with
             | Emit _ | Print => true
             | _ => false
             end) lines = true.

(** The first interpreter of the README: a line that starts with [p]
    prints, any other line is appended; nothing is thrown and no line is
    skipped. *)
Definition readme_interpreter_callback (line : string) (st : string * World)
  : Completion * (string * World) :=
  if loose_eq (char_at0 line) "p" then
    (Normal, (st.1, console_log st.1 st.2))
  else
    (Normal, (st.1 +:+ line, st.2)).

Definition readme_interpret (lines : list string) (w : World)
  : Completion * World :=
  let r := forEach lines readme_interpreter_callback (EmptyString, w) in
  (r.1, r.2.2).

(** The lines before the first invalid one; the whole program when it
    is valid. *)
Fixpoint valid_prefix (lines : list string) : list string :=
  match lines with
  | [] => []
  | line :: rest =>
      if is_invalid (classify line) then [] else line :: valid_prefix rest
  end.

(** * Properties *)

(** ** Text *)

Lemma text_app_nil_l (s : string) : EmptyString +:+ s = s.
Proof. reflexivity. Qed.

Lemma text_app_cons (c : ascii) (s t : string) :
  String c s +:+ t = String c (s +:+ t).
Proof. reflexivity. Qed.

Lemma text_app_nil_r (s : string) : s +:+ EmptyString = s.
Proof. induction s as [|c s IH]; [reflexivity|]. rewrite text_app_cons. by f_equal. Qed.

Lemma text_app_assoc (s t u : string) : (s +:+ t) +:+ u = s +:+ (t +:+ u).
Proof.
  induction s as [|c s IH]; [reflexivity|].
  rewrite !text_app_cons. by f_equal.
Qed.

Lemma text_length_app (s t : string) :
  String.length (s +:+ t) = String.length s + String.length t.
Proof.
  induction s as [|c s IH]; [reflexivity|].
  rewrite text_app_cons. simpl. by rewrite IH.
Qed.

Lemma plain_text_app (s t : string) :
  plain_text (s +:+ t) = plain_text s && plain_text t.
Proof.
  induction s as [|c s IH]; [reflexivity|].
  rewrite text_app_cons. simpl. rewrite IH. by rewrite andb_assoc.
Qed.

Lemma text_prefix_refl (s : string) : text_prefix s s.
Proof. exists EmptyString. by rewrite text_app_nil_r. Qed.

Lemma text_prefix_app (s t : string) : text_prefix s (s +:+ t).
Proof. by exists t. Qed.

Lemma text_prefix_trans (s t u : string) :
  text_prefix s t -> text_prefix t u -> text_prefix s u.
Proof.
  intros [a ->] [b ->]. exists (a +:+ b). apply text_app_assoc.
Qed.

Lemma strip_prefix_app (p s : string) : strip_prefix p (p +:+ s) = Some s.
Proof.
  induction p as [|c p IH]; [reflexivity|].
  rewrite text_app_cons. simpl. by rewrite Ascii.eqb_refl.
Qed.

Lemma strip_prefix_Some (p s rest : string) :
  strip_prefix p s = Some rest -> s = p +:+ rest.
Proof.
  revert s. induction p as [|c p IH]; intros s H.
  - by inversion H.
  - destruct s as [|d s]; [discriminate|]. simpl in H.
    destruct (Ascii.eqb_spec c d) as [->|]; [|discriminate].
    rewrite text_app_cons. f_equal. by apply IH.
Qed.

(** ** Splitting into lines *)

Lemma split_crlf_nonempty (s : string) : split_crlf s <> [].
Proof.
  induction s as [|c s IH]; [done|]. simpl.
  destruct (Ascii.eqb c CR); destruct s as [|d s']; try done;
    try destruct (Ascii.eqb d LF); try done;
    by destruct (split_crlf _).
Qed.

Lemma join_crlf_cons (piece : string) (pieces : list string) :
  pieces <> [] ->
  join_crlf (piece :: pieces)
  = piece +:+ String CR (String LF (join_crlf pieces)).
Proof. by destruct pieces. Qed.

(** Joining the pieces with the separator gives the text back: [split]
    loses nothing and cuts nowhere else. *)
Lemma join_split_crlf (s : string) : join_crlf (split_crlf s) = s.
Proof.
  induction s as [|c s IH]; [reflexivity|].
  assert (Hcons : forall l, l <> [] -> join_crlf l = s ->
            join_crlf (match l with
                       | piece :: pieces => String c piece :: pieces
                       | [] => [String c EmptyString]
                       end) = String c s).
  { intros [|piece [|p2 pieces]] Hne Hj; [done| |].
    - simpl in *. by f_equal.
    - rewrite join_crlf_cons in Hj by done.
      rewrite join_crlf_cons by done. rewrite text_app_cons. by f_equal. }
  simpl. destruct (Ascii.eqb_spec c CR) as [->|Hc].
  - destruct s as [|d s']; [reflexivity|].
    destruct (Ascii.eqb_spec d LF) as [->|Hd].
    + rewrite join_crlf_cons by apply split_crlf_nonempty.
      rewrite text_app_nil_l. do 2 f_equal.
      simpl in IH.
      destruct (split_crlf s') as [|piece pieces] eqn:E.
      { by destruct (split_crlf_nonempty s'). }
      destruct pieces as [|p2 pieces].
      * simpl in IH. by inversion IH.
      * rewrite join_crlf_cons in IH by done.
        rewrite text_app_cons in IH. inversion IH as [Hj].
        by rewrite join_crlf_cons by done.
    + apply Hcons; [apply split_crlf_nonempty|done].
  - destruct s as [|d s']; [reflexivity|].
    apply Hcons; [apply split_crlf_nonempty|done].
Qed.

(** ** Classification and the four loops *)

Lemma classify_Emit (line payload : string) :
  classify line = Emit payload -> payload = line.
Proof.
  unfold classify. intros H.
  repeat match type of H with
         | (if ?b then _ else _) = _ => destruct b; try discriminate
         end.
  by inversion H.
Qed.

Lemma interpreter_callback_classify (line : string) (st : string * World) :
  interpreter_callback line st =
  match classify line with
  | Print => (Normal, (st.1, console_log st.1 st.2))
  | Invalid => (Throw invalid_line_error, st)
  | Comment => (Normal, st)
  | Emit payload => (Normal, (st.1 +:+ payload, st.2))
  end.
Proof.
  unfold interpreter_callback, classify.
  by repeat match goal with |- context [if ?b then _ else _] => destruct b end.
Qed.

Lemma compiler_callback_classify (line program : string) :
  compiler_callback line program =
  match classify line with
  | Print => (Normal, program +:+ render_instruction PrintCurrent)
  | Invalid => (Throw invalid_line_error, program)
  | Comment => (Normal, program)
  | Emit payload =>
      (Normal, program +:+ render_instruction (AppendLiteral payload))
  end.
Proof.
  unfold compiler_callback, classify.
  by repeat match goal with |- context [if ?b then _ else _] => destruct b end.
Qed.

Lemma jit_callback_compiler (line program : string) :
  jit_callback line program = compiler_callback line program.
Proof. reflexivity. Qed.

Lemma optimizer_callback_classify (line : string) (st : string * string) :
  optimizer_callback line st =
  match classify line with
  | Print => (Normal, (st.1 +:+ render_instruction (PrintLiteral st.2), st.2))
  | Invalid => (Throw invalid_line_error, st)
  | Comment => (Normal, st)
  | Emit payload => (Normal, (st.1, st.2 +:+ payload))
  end.
Proof.
  unfold optimizer_callback, classify.
  by repeat match goal with |- context [if ?b then _ else _] => destruct b end.
Qed.

Lemma forEach_app {S : Type} (l1 l2 : list string)
    (callback : string -> S -> Completion * S) (st : S) :
  forEach (l1 ++ l2) callback st =
  match forEach l1 callback st with
  | (Normal, st') => forEach l2 callback st'
  | (Throw e, st') => (Throw e, st')
  end.
Proof.
  revert st. induction l1 as [|line l1 IH]; intros st; [reflexivity|].
  simpl. destruct (callback line st) as [[|e] st']; [apply IH|reflexivity].
Qed.

Lemma forEach_ext {S : Type} (lines : list string)
    (f g : string -> S -> Completion * S) (st : S) :
  (forall line st', f line st' = g line st') ->
  forEach lines f st = forEach lines g st.
Proof.
  intros Hfg. revert st. induction lines as [|line rest IH]; intros st;
    [reflexivity|].
  simpl. rewrite Hfg. destruct (g line st) as [[|e] st']; [apply IH|reflexivity].
Qed.

(** ** Valid programs and the first invalid line *)

Lemma valid_cons (line : string) (rest : list string) :
  valid (line :: rest) <-> classify line <> Invalid /\ valid rest.
Proof.
  unfold valid. simpl. rewrite andb_true_iff.
  split; intros [H1 H2]; split; try done.
  - intros E. by rewrite E in H1.
  - by destruct (classify line).
Qed.

Lemma valid_app (l1 l2 : list string) :
  valid (l1 ++ l2) <-> valid l1 /\ valid l2.
Proof. unfold valid. rewrite forallb_app. apply andb_true_iff. Qed.

Lemma first_invalid_None (lines : list string) :
  first_invalid lines = None <-> valid lines.
Proof.
  induction lines as [|line rest IH]; [done|].
  rewrite valid_cons. simpl.
  destruct (classify line) eqn:E; simpl;
    destruct (first_invalid rest); simpl; split; try done;
    try (intros _; split; [done|by apply IH]);
    try (intros [_ H]; by apply IH in H).
  all: by intros [H _].
Qed.

Lemma first_invalid_pos (lines : list string) (L : nat) :
  first_invalid lines = Some L -> 1 <= L.
Proof.
  destruct lines as [|line rest]; [done|]. simpl.
  destruct (is_invalid (classify line)); [intros [= <-]; lia|].
  destruct (first_invalid rest); simpl; intros [= <-]; lia.
Qed.

(** The lines before the first invalid one form a valid program, and the
    line numbered [L] is invalid. *)
Lemma first_invalid_split (lines : list string) (L : nat) :
  first_invalid lines = Some L ->
  exists bad post,
    lines = take (L - 1) lines ++ bad :: post /\
    valid (take (L - 1) lines) /\
    classify bad = Invalid.
Proof.
  revert L. induction lines as [|line rest IH]; intros L; [done|].
  simpl. destruct (classify line) eqn:E; simpl.
  4: { intros [= <-]. exists line, rest. simpl. by rewrite E. }
  all: destruct (first_invalid rest) as [L'|] eqn:F; simpl; [|done];
    intros [= <-];
    destruct (IH L' eq_refl) as (bad & post & Hl & Hv & Hb);
    pose proof (first_invalid_pos _ _ F);
    exists bad, post;
    replace (S L' - 1) with (S (L' - 1)) by lia; simpl;
    (split; [by f_equal|]); split; [|done];
    apply valid_cons; split; [by rewrite E|done].
Qed.

(** ** What the specification expects, by recursion on the program *)

Lemma filter_map_shift {A B : Type} (f : B -> bool) (g : A -> B)
    (l : list A) :
  List.filter f (map g l) = map g (List.filter (fun a => f (g a)) l).
Proof.
  induction l as [|a l IH]; [reflexivity|].
  simpl. rewrite IH. by destruct (f (g a)).
Qed.

Lemma payload_text_cons (line : string) (rest : list string) :
  payload_text (line :: rest) = payload_of line +:+ payload_text rest.
Proof. unfold payload_of. simpl. by destruct (classify line). Qed.

Lemma payload_text_app (l1 l2 : list string) :
  payload_text (l1 ++ l2) = payload_text l1 +:+ payload_text l2.
Proof.
  induction l1 as [|line l1 IH]; [reflexivity|].
  rewrite <- app_comm_cons, !payload_text_cons, IH.
  by rewrite text_app_assoc.
Qed.

Lemma expected_prints_cons (line : string) (rest : list string) :
  expected_prints (line :: rest) =
  (if is_print (classify line) then [EmptyString] else [])
  ++ map (fun out => payload_of line +:+ out) (expected_prints rest).
Proof.
  unfold expected_prints. simpl length.
  rewrite <- cons_seq, <- seq_shift. simpl List.filter.
  rewrite filter_map_shift. simpl nth.
  assert (Hmap : forall l : list nat,
    map (fun i => payload_text (take i (line :: rest))) (map S l)
    = map (fun out => payload_of line +:+ out)
        (map (fun i => payload_text (take i rest)) l)).
  { intros l. rewrite !map_map. apply map_ext. intros i.
    simpl take. apply payload_text_cons. }
  destruct (is_print (classify line)); simpl; by rewrite Hmap.
Qed.

Lemma expected_prints_length (lines : list string) :
  length (expected_prints lines) = count_prints lines.
Proof.
  induction lines as [|line rest IH]; [reflexivity|].
  rewrite expected_prints_cons, length_app, length_map, IH.
  unfold count_prints. simpl.
  by destruct (is_print (classify line)).
Qed.

(** ** The loops on valid programs *)

Lemma add_output_nil (w : World) : add_output w [] = w.
Proof. destruct w. unfold add_output. simpl. by rewrite app_nil_r. Qed.

Lemma interpreter_loop_valid (lines : list string) (s : string) (w : World) :
  valid lines ->
  forEach lines interpreter_callback (s, w) =
  (Normal, (s +:+ payload_text lines,
            add_output w (map (fun out => s +:+ out) (expected_prints lines)))).
Proof.
  revert s w. induction lines as [|line rest IH]; intros s w Hv.
  - simpl. by rewrite text_app_nil_r, add_output_nil.
  - apply valid_cons in Hv as [Hline Hv].
    rewrite expected_prints_cons, payload_text_cons. unfold payload_of.
    simpl forEach. rewrite interpreter_callback_classify.
    destruct (classify line) as [|payload| |] eqn:E; [| | |done]; simpl.
    + by rewrite IH, map_map.
    + rewrite IH by done. rewrite map_map, text_app_assoc. do 3 f_equal.
      apply map_ext. intros out. apply text_app_assoc.
    + rewrite IH by done. unfold add_output, console_log. simpl.
      rewrite map_map, text_app_nil_r, <- app_assoc. reflexivity.
Qed.

Lemma compiler_loop_valid (lines : list string) (program : string) :
  valid lines ->
  forEach lines compiler_callback program =
  (Normal, program +:+ render (translate lines)).
Proof.
  revert program. induction lines as [|line rest IH]; intros program Hv.
  - simpl. by rewrite text_app_nil_r.
  - apply valid_cons in Hv as [Hline Hv].
    simpl. rewrite compiler_callback_classify.
    destruct (classify line) as [|payload| |] eqn:E; [| | |done].
    + by apply IH.
    + rewrite IH by done. simpl render. by rewrite text_app_assoc.
    + rewrite IH by done. simpl render. by rewrite text_app_assoc.
Qed.

Lemma optimizer_loop_valid (lines : list string) (program s : string) :
  valid lines ->
  forEach lines optimizer_callback (program, s) =
  (Normal, (program +:+ render (fold_prints s lines),
            s +:+ payload_text lines)).
Proof.
  revert program s. induction lines as [|line rest IH]; intros program s Hv.
  - simpl. by rewrite !text_app_nil_r.
  - apply valid_cons in Hv as [Hline Hv].
    rewrite payload_text_cons. unfold payload_of.
    simpl. rewrite optimizer_callback_classify.
    destruct (classify line) as [|payload| |] eqn:E; [| | |done]; simpl.
    + by apply IH.
    + rewrite IH by done. by rewrite text_app_assoc.
    + rewrite IH by done. simpl render. by rewrite text_app_assoc.
Qed.

(** ** Reading generated text back *)

Lemma plain_char_cases (c : ascii) :
  plain_char c = true ->
  Ascii.eqb c SQ = false /\ Ascii.eqb c BSL = false /\
  Ascii.eqb c LF = false /\ Ascii.eqb c CR = false.
Proof.
  unfold plain_char. rewrite negb_true_iff, !orb_false_iff. tauto.
Qed.

(** A plain text between quotes denotes itself. *)
Lemma scan_literal_plain (text rest : string) :
  plain_text text = true ->
  scan_literal (text +:+ String SQ rest) = LitDone text rest.
Proof.
  induction text as [|c text IH]; intros Hp.
  - reflexivity.
  - simpl in Hp. apply andb_true_iff in Hp as [Hc Hp].
    apply plain_char_cases in Hc as (H1 & H2 & H3 & H4).
    rewrite text_app_cons. simpl. rewrite H1, H2, H3, H4. simpl.
    by rewrite IH.
Qed.

Lemma parse_print_current (fuel : nat) (rest : string) :
  parse_statements (S fuel) (render_instruction PrintCurrent +:+ rest)
  = parse_cons PrintCurrent (parse_statements fuel rest).
Proof. reflexivity. Qed.

Lemma parse_append_literal (fuel : nat) (text rest : string) :
  plain_text text = true ->
  parse_statements (S fuel) (render_instruction (AppendLiteral text) +:+ rest)
  = parse_cons (AppendLiteral text) (parse_statements fuel rest).
Proof.
  intros Hp.
  change (parse_statements (S fuel)
            (render_instruction (AppendLiteral text) +:+ rest))
    with (literal_statement AppendLiteral nl (parse_statements fuel)
            ((text +:+ "'" +:+ nl) +:+ rest)).
  unfold literal_statement.
  rewrite text_app_assoc.
  change (("'" +:+ nl) +:+ rest) with (String SQ (nl +:+ rest)).
  rewrite scan_literal_plain by done.
  by rewrite strip_prefix_app.
Qed.

Lemma parse_print_literal (fuel : nat) (text rest : string) :
  plain_text text = true ->
  parse_statements (S fuel) (render_instruction (PrintLiteral text) +:+ rest)
  = parse_cons (PrintLiteral text) (parse_statements fuel rest).
Proof.
  intros Hp.
  change (parse_statements (S fuel)
            (render_instruction (PrintLiteral text) +:+ rest))
    with (literal_statement PrintLiteral (")" +:+ nl) (parse_statements fuel)
            ((text +:+ "')" +:+ nl) +:+ rest)).
  unfold literal_statement.
  rewrite text_app_assoc.
  change (("')" +:+ nl) +:+ rest) with (String SQ ((")" +:+ nl) +:+ rest)).
  rewrite scan_literal_plain by done.
  by rewrite strip_prefix_app.
Qed.

(** Reading back what was written: statement lists with plain literals
    survive the round trip through text. *)
Lemma parse_statements_render (body : list Instruction) (fuel : nat) :
  forallb plain_instruction body = true ->
  length body < fuel ->
  parse_statements fuel (render body) = Parsed body.
Proof.
  revert fuel. induction body as [|i body IH]; intros fuel Hp Hf.
  - destruct fuel; [lia|reflexivity].
  - simpl in Hp. apply andb_true_iff in Hp as [Hi Hp].
    destruct fuel as [|fuel]; [lia|]. simpl in Hf.
    assert (Hrec : parse_statements fuel (render body) = Parsed body)
      by (apply IH; [done|lia]).
    simpl render. destruct i as [|text| |text]; [done| | |].
    + rewrite parse_append_literal by done. by rewrite Hrec.
    + rewrite parse_print_current. by rewrite Hrec.
    + rewrite parse_print_literal by done. by rewrite Hrec.
Qed.

Lemma render_instruction_length (i : Instruction) :
  1 <= String.length (render_instruction i).
Proof.
  destruct i; unfold render_instruction; try (vm_compute; lia).
  all: rewrite text_length_app; simpl; lia.
Qed.

Lemma render_length (body : list Instruction) :
  length body <= String.length (render body).
Proof.
  induction body as [|i body IH]; [done|].
  simpl. rewrite text_length_app.
  pose proof (render_instruction_length i). lia.
Qed.

Lemma parse_program_prelude (body : list Instruction) :
  forallb plain_instruction body = true ->
  parse_program (prelude +:+ render body) = Parsed (LetString :: body).
Proof.
  intros Hp. unfold parse_program. rewrite strip_prefix_app.
  rewrite parse_statements_render; [done|done|].
  pose proof (render_length body). lia.
Qed.

Lemma strip_prefix_prelude_render (body : list Instruction) :
  forallb is_print_literal body = true ->
  strip_prefix prelude (render body) = None.
Proof.
  destruct body as [|i body]; [done|]. simpl.
  by destruct i.
Qed.

Lemma parse_program_print_literals (body : list Instruction) :
  forallb plain_instruction body = true ->
  forallb is_print_literal body = true ->
  parse_program (render body) = Parsed body.
Proof.
  intros Hp Hl. unfold parse_program.
  rewrite strip_prefix_prelude_render by done.
  apply parse_statements_render; [done|].
  pose proof (render_length body). lia.
Qed.

(** ** Fuel *)

Lemma strip_prefix_length (p s rest : string) :
  strip_prefix p s = Some rest ->
  String.length s = String.length p + String.length rest.
Proof.
  intros H. apply strip_prefix_Some in H as ->. apply text_length_app.
Qed.

Lemma lit_cons_done (c : ascii) (r : LitScan) (value rest : string) :
  lit_cons c r = LitDone value rest ->
  exists value', r = LitDone value' rest.
Proof. destruct r; simpl; intros H; inversion H; eauto. Qed.

(** A literal that ends leaves less text than it started from. *)
Lemma scan_literal_length (s value rest : string) :
  scan_literal s = LitDone value rest ->
  String.length rest < String.length s.
Proof.
  remember (String.length s) as n eqn:Hn. revert s value rest Hn.
  induction n as [n IH] using lt_wf_ind. intros s value rest Hn.
  destruct s as [|c s']; [done|]. simpl in Hn. simpl.
  destruct (Ascii.eqb c SQ); [intros [= _ <-]; lia|].
  destruct (Ascii.eqb c LF || Ascii.eqb c CR); [done|].
  destruct (Ascii.eqb c BSL).
  - destruct s' as [|e s'']; [done|]. simpl in Hn.
    destruct (escape e); [| |done].
    + intros [value' H]%lit_cons_done.
      apply (IH (String.length s'')) in H; [lia|lia|done].
    + destruct (Ascii.eqb e CR).
      * destruct s'' as [|d s''']; [done|]. simpl in Hn.
        destruct (Ascii.eqb d LF); intros H.
        -- apply (IH (String.length s''')) in H; [lia|lia|done].
        -- apply (IH (String.length (String d s'''))) in H;
             simpl in *; [lia|lia|done].
      * intros H. apply (IH (String.length s'')) in H; [lia|lia|done].
  - intros [value' H]%lit_cons_done.
    apply (IH (String.length s')) in H; [lia|lia|done].
Qed.

Lemma literal_statement_ext (mk : string -> Instruction) (closing : string)
    (k1 k2 : string -> JsParse) (body : string) :
  (forall rest, String.length rest < String.length body -> k1 rest = k2 rest) ->
  literal_statement mk closing k1 body = literal_statement mk closing k2 body.
Proof.
  intros Hk. unfold literal_statement.
  destruct (scan_literal body) as [value rest| |] eqn:Hs; [|done|done].
  destruct (strip_prefix closing rest) as [rest'|] eqn:Hc; [|done].
  apply scan_literal_length in Hs. apply strip_prefix_length in Hc.
  rewrite Hk by lia. done.
Qed.

Lemma statement_ext (k1 k2 : string -> JsParse) (s : string) :
  (forall rest, String.length rest < String.length s -> k1 rest = k2 rest) ->
  statement k1 s = statement k2 s.
Proof.
  intros Hk. unfold statement.
  destruct (strip_prefix ("console.log(string)" +:+ nl) s) as [rest|] eqn:H1.
  { apply strip_prefix_length in H1. rewrite Hk; [done|].
    rewrite H1. vm_compute String.length at 2. lia. }
  destruct (strip_prefix "string += '" s) as [body|] eqn:H2.
  { apply strip_prefix_length in H2. apply literal_statement_ext.
    intros rest Hr. apply Hk. lia. }
  destruct (strip_prefix "console.log('" s) as [body|] eqn:H3; [|done].
  apply strip_prefix_length in H3. apply literal_statement_ext.
  intros rest Hr. apply Hk. lia.
Qed.

(** The parser never stops for lack of fuel: any two amounts of fuel above
    the length of the text give the same result, and the result of
    [parse_program] is the result with any larger amount. *)
Lemma parse_statements_fuel (fuel fuel' : nat) (s : string) :
  String.length s < fuel ->
  String.length s < fuel' ->
  parse_statements fuel s = parse_statements fuel' s.
Proof.
  revert fuel' s. induction fuel as [|fuel IH]; intros fuel' s H1 H2; [lia|].
  destruct fuel' as [|fuel']; [lia|].
  destruct s as [|c s']; [done|].
  change (statement (parse_statements fuel) (String c s')
          = statement (parse_statements fuel') (String c s')).
  apply statement_ext. intros rest Hr. apply IH; lia.
Qed.

(** ** Running generated programs *)

Lemma add_output_app (w : World) (o1 o2 : list string) :
  add_output (add_output w o1) o2 = add_output w (o1 ++ o2).
Proof. unfold add_output. simpl. by rewrite app_assoc. Qed.

Lemma exec_translate (lines : list string) (s : string) (w : World) :
  exec (translate lines) (Some s) w =
  (Normal, add_output w (map (fun out => s +:+ out) (expected_prints lines))).
Proof.
  revert s w. induction lines as [|line rest IH]; intros s w.
  - simpl. by rewrite add_output_nil.
  - rewrite expected_prints_cons. unfold payload_of. simpl.
    destruct (classify line) as [|payload| |] eqn:E; simpl; rewrite IH.
    + by rewrite map_map.
    + rewrite map_map. do 2 f_equal. apply map_ext. intros out.
      apply text_app_assoc.
    + change (console_log s w) with (add_output w [s]).
      by rewrite add_output_app, map_map, text_app_nil_r.
    + by rewrite map_map.
Qed.

Lemma exec_fold_prints (lines : list string) (s : string)
    (var : option string) (w : World) :
  exec (fold_prints s lines) var w =
  (Normal, add_output w (map (fun out => s +:+ out) (expected_prints lines))).
Proof.
  revert s w. induction lines as [|line rest IH]; intros s w.
  - simpl. by rewrite add_output_nil.
  - rewrite expected_prints_cons. unfold payload_of. simpl.
    destruct (classify line) as [|payload| |] eqn:E; simpl; rewrite IH.
    + by rewrite map_map.
    + rewrite map_map. do 2 f_equal. apply map_ext. intros out.
      apply text_app_assoc.
    + change (console_log s w) with (add_output w [s]).
      by rewrite add_output_app, map_map, text_app_nil_r.
    + by rewrite map_map.
Qed.

Lemma map_app_nil_l (l : list string) :
  map (fun out => EmptyString +:+ out) l = l.
Proof. induction l as [|x l IH]; [done|]. simpl. by rewrite IH. Qed.

Lemma translate_plain (lines : list string) :
  plain_payloads lines ->
  forallb plain_instruction (translate lines) = true.
Proof.
  unfold plain_payloads. induction lines as [|line rest IH]; [done|].
  simpl. unfold plain_payload. intros [Hl Hr]%andb_true_iff.
  destruct (classify line); simpl; auto.
  by rewrite Hl, IH.
Qed.

Lemma fold_prints_plain (lines : list string) (s : string) :
  plain_text s = true ->
  plain_payloads lines ->
  forallb plain_instruction (fold_prints s lines) = true.
Proof.
  unfold plain_payloads. revert s.
  induction lines as [|line rest IH]; intros s Hs; [done|].
  simpl. unfold plain_payload. intros [Hl Hr]%andb_true_iff.
  destruct (classify line); simpl; auto.
  - apply IH; [|done]. by rewrite plain_text_app, Hs, Hl.
  - by rewrite Hs, IH.
Qed.

Lemma fold_prints_literals (lines : list string) (s : string) :
  forallb is_print_literal (fold_prints s lines) = true.
Proof.
  revert s. induction lines as [|line rest IH]; intros s; [done|].
  simpl. destruct (classify line); simpl; auto.
Qed.

Lemma fold_prints_length (lines : list string) (s : string) :
  length (fold_prints s lines) = count_prints lines.
Proof.
  revert s. induction lines as [|line rest IH]; intros s; [done|].
  unfold count_prints in *. simpl.
  destruct (classify line); simpl; auto.
Qed.

(** A program saved on disk is the program [node] runs. *)
Lemma node_written (path program : string) (w : World) :
  node path (writeFileSync path program w)
  = eval program (writeFileSync path program w).
Proof.
  unfold node, readFileSync, writeFileSync. simpl.
  by rewrite lookup_insert_eq.
Qed.

Lemma interpret_valid (lines : list string) (w : World) :
  valid lines ->
  interpret lines w = (Normal, add_output w (expected_prints lines)).
Proof.
  intros Hv. unfold interpret.
  rewrite interpreter_loop_valid by done. simpl.
  by rewrite map_app_nil_l.
Qed.

Lemma compile_valid (lines : list string) :
  valid lines ->
  compile lines = (Normal, prelude +:+ render (translate lines)).
Proof. apply compiler_loop_valid. Qed.

Lemma compileOptimized_valid (lines : list string) :
  valid lines ->
  compileOptimized lines = (Normal, render (fold_prints EmptyString lines)).
Proof.
  intros Hv. unfold compileOptimized.
  by rewrite optimizer_loop_valid.
Qed.

Lemma eval_compiled (lines : list string) (w : World) :
  plain_payloads lines ->
  eval (prelude +:+ render (translate lines)) w
  = Some (Normal, add_output w (expected_prints lines)).
Proof.
  intros Hp. unfold eval.
  rewrite parse_program_prelude by by apply translate_plain.
  simpl exec. by rewrite exec_translate, map_app_nil_l.
Qed.

Lemma eval_optimized (lines : list string) (w : World) :
  plain_payloads lines ->
  eval (render (fold_prints EmptyString lines)) w
  = Some (Normal, add_output w (expected_prints lines)).
Proof.
  intros Hp. unfold eval.
  rewrite parse_program_print_literals.
  - by rewrite exec_fold_prints, map_app_nil_l.
  - by apply fold_prints_plain.
  - apply fold_prints_literals.
Qed.

(** ** Cross-strategy equivalence *)

(** X15.  For every valid program whose [Emit] payloads contain no single
    quote, no backslash and no line terminator, the interpreter, the JIT,
    the saved output of the compiler run by [node] and the saved output of
    the optimizing compiler run by [node] all complete normally and print
    the same sequence of lines. *)
Theorem cross_strategy_equivalence (lines : list string) (w : World) :
  valid lines ->
  plain_payloads lines ->
  exists (out : list string) (program optimized : string),
    interpret lines w = (Normal, add_output w out) /\
    jitRun lines w = Some (Normal, add_output w out) /\
    compile lines = (Normal, program) /\
    node "./output.js" (writeFileSync "./output.js" program w)
    = Some (Normal,
            add_output (writeFileSync "./output.js" program w) out) /\
    compileOptimized lines = (Normal, optimized) /\
    node "./optimized-output.js"
      (writeFileSync "./optimized-output.js" optimized w)
    = Some (Normal,
            add_output
              (writeFileSync "./optimized-output.js" optimized w) out).
Proof.
  intros Hv Hp.
  exists (expected_prints lines), (prelude +:+ render (translate lines)),
    (render (fold_prints EmptyString lines)).
  repeat split.
  - by apply interpret_valid.
  - unfold jitRun.
    rewrite (forEach_ext lines jit_callback compiler_callback)
      by apply jit_callback_compiler.
    rewrite compiler_loop_valid by done. by apply eval_compiled.
  - by apply compile_valid.
  - rewrite node_written. by apply eval_compiled.
  - by apply compileOptimized_valid.
  - rewrite node_written. by apply eval_optimized.
Qed.

Lemma cross_strategy_equivalence_witness :
  exists (out : list string) (program optimized : string),
    interpret ["hello"; "print"; " world"; "print"] (mkWorld [] ∅)
    = (Normal, add_output (mkWorld [] ∅) out) /\
    jitRun ["hello"; "print"; " world"; "print"] (mkWorld [] ∅)
    = Some (Normal, add_output (mkWorld [] ∅) out) /\
    compile ["hello"; "print"; " world"; "print"] = (Normal, program) /\
    node "./output.js" (writeFileSync "./output.js" program (mkWorld [] ∅))
    = Some (Normal,
            add_output
              (writeFileSync "./output.js" program (mkWorld [] ∅)) out) /\
    compileOptimized ["hello"; "print"; " world"; "print"]
    = (Normal, optimized) /\
    node "./optimized-output.js"
      (writeFileSync "./optimized-output.js" optimized (mkWorld [] ∅))
    = Some (Normal,
            add_output
              (writeFileSync "./optimized-output.js" optimized
                 (mkWorld [] ∅)) out).
Proof.
  apply (cross_strategy_equivalence
           ["hello"; "print"; " world"; "print"] (mkWorld [] ∅));
    reflexivity.
Defined.

(** C1.  The claim is that all four strategies print the same for every
    payload, quotes and backslashes included; the generators break it,
    because they put the payload between single quotes without escaping
    it.  With an apostrophe in a payload the generated
    program has a literal left open: the interpreter prints the payload,
    the JIT prints nothing and ends in a syntax error.  With a backslash
    the generated literal denotes another text: the interpreter prints the
    four characters [a\\b], the JIT and the optimized output print the
    three characters [a\b].  A line feed inside a line (the source is split
    at carriage return plus line feed only) leaves the literal open as
    well. *)
Lemma cross_strategy_equivalence_counterexample :
  valid ["it's"; "print"] /\
  interpret ["it's"; "print"] empty_world = (Normal, mkWorld ["it's"] ∅) /\
  jitRun ["it's"; "print"] empty_world = Some (Throw SyntaxError, empty_world) /\
  valid ["a\\b"; "print"] /\
  interpret ["a\\b"; "print"] empty_world = (Normal, mkWorld ["a\\b"] ∅) /\
  jitRun ["a\\b"; "print"] empty_world = Some (Normal, mkWorld ["a\b"] ∅) /\
  compileOptimized ["a\\b"; "print"]
  = (Normal, "console.log('a\\b')" +:+ nl) /\
  eval ("console.log('a\\b')" +:+ nl) empty_world
  = Some (Normal, mkWorld ["a\b"] ∅) /\
  valid ["a" +:+ nl +:+ "b"; "print"] /\
  interpret ["a" +:+ nl +:+ "b"; "print"] empty_world
  = (Normal, mkWorld ["a" +:+ nl +:+ "b"] ∅) /\
  jitRun ["a" +:+ nl +:+ "b"; "print"] empty_world
  = Some (Throw SyntaxError, empty_world) /\
  ~ (forall (lines : list string) (w : World),
       valid lines ->
       exists out : list string,
         interpret lines w = (Normal, add_output w out) /\
         jitRun lines w = Some (Normal, add_output w out)).
Proof.
  repeat split; try reflexivity.
  intros H.
  destruct (H ["it's"; "print"] empty_world eq_refl) as (out & Hi & Hj).
  discriminate Hj.
Qed.

(** ** Failure on an invalid line *)

Lemma interpret_first_invalid (lines : list string) (L : nat) (w : World) :
  first_invalid lines = Some L ->
  interpret lines w =
  (Throw invalid_line_error,
   add_output w (expected_prints (take (L - 1) lines))).
Proof.
  intros HL.
  destruct (first_invalid_split lines L HL) as (bad & post & Hl & Hv & Hb).
  remember (take (L - 1) lines) as pre eqn:Hpre. clear Hpre. subst lines.
  unfold interpret. rewrite forEach_app, interpreter_loop_valid by done.
  simpl. rewrite interpreter_callback_classify, Hb. simpl.
  by rewrite map_app_nil_l.
Qed.

Lemma compiler_loop_first_invalid (lines : list string) (L : nat)
    (program : string) :
  first_invalid lines = Some L ->
  (forEach lines compiler_callback program).1 = Throw invalid_line_error.
Proof.
  intros HL.
  destruct (first_invalid_split lines L HL) as (bad & post & Hl & Hv & Hb).
  rewrite Hl, forEach_app, compiler_loop_valid by done.
  simpl. by rewrite compiler_callback_classify, Hb.
Qed.

Lemma optimizer_loop_first_invalid (lines : list string) (L : nat)
    (st : string * string) :
  first_invalid lines = Some L ->
  (forEach lines optimizer_callback st).1 = Throw invalid_line_error.
Proof.
  intros HL. destruct st as [program s].
  destruct (first_invalid_split lines L HL) as (bad & post & Hl & Hv & Hb).
  rewrite Hl, forEach_app, optimizer_loop_valid by done.
  simpl. by rewrite optimizer_callback_classify, Hb.
Qed.

Lemma compiler_js_first_invalid
    (sourceCodeFile sourceCode : string) (L : nat) (w : World) :
  files w !! sourceCodeFile = Some sourceCode ->
  first_invalid (split_crlf sourceCode) = Some L ->
  compiler_js sourceCodeFile w = (Throw invalid_line_error, w).
Proof.
  intros Hf HL.
  pose proof (compiler_loop_first_invalid _ _ prelude HL) as Hc.
  unfold compiler_js, readFileSync. rewrite Hf. unfold compile.
  destruct (forEach _ compiler_callback prelude) as [c program].
  simpl in Hc. by subst c.
Qed.

(** C2 (as amended).  For every program with an invalid statement, the
    first one on line [L], the interpreter prints exactly what the [Print]
    statements before line [L] print, in order, then fails with the error
    [ERROR I AM AN INVALID LINE] and prints nothing more; that error is one
    fixed value, which holds no line number. *)
Theorem interpret_partial_progress (lines : list string) (L : nat) (w : World) :
  first_invalid lines = Some L ->
  interpret lines w =
  (Throw (Error "ERROR I AM AN INVALID LINE"),
   mkWorld (console w ++ expected_prints (take (L - 1) lines)) (files w)).
Proof. apply interpret_first_invalid. Qed.

Lemma interpret_partial_progress_witness :
  interpret ["hello"; "print"; "this is invalid"; "print"] empty_world =
  (Throw (Error "ERROR I AM AN INVALID LINE"), mkWorld ["hello"] ∅).
Proof.
  apply (interpret_partial_progress
           ["hello"; "print"; "this is invalid"; "print"] 3 empty_world).
  reflexivity.
Defined.

(** C2 (as stated) fails: the error does not carry the line.  An invalid
    first line and an invalid second line end the run with the same error
    value, so no reading of the error gives the line number back. *)
Lemma interpret_error_line_counterexample :
  first_invalid ["this"] = Some 1 /\
  first_invalid ["abc"; "this"] = Some 2 /\
  (interpret ["this"] empty_world).1 = Throw invalid_line_error /\
  (interpret ["abc"; "this"] empty_world).1 = Throw invalid_line_error /\
  ~ (exists line_of : JsError -> nat,
       forall (lines : list string) (L : nat) (w : World),
         first_invalid lines = Some L ->
         exists e, (interpret lines w).1 = Throw e /\ line_of e = L).
Proof.
  repeat split; try reflexivity.
  intros [line_of H].
  destruct (H ["this"] 1 empty_world eq_refl) as (e1 & He1 & H1).
  destruct (H ["abc"; "this"] 2 empty_world eq_refl) as (e2 & He2 & H2).
  vm_compute in He1, He2.
  inversion He1; inversion He2; subst. congruence.
Qed.

(** C3.  When the source has an invalid statement, the compiler, the
    optimizing compiler and the JIT each fail with the invalid-line error
    and leave the world as it was: nothing is printed and no file is
    written, because the loop throws before [writeFileSync] or [eval] is
    reached. *)
Theorem compilation_all_or_nothing
    (sourceCodeFile sourceCode : string) (L : nat) (w : World) :
  files w !! sourceCodeFile = Some sourceCode ->
  first_invalid (split_crlf sourceCode) = Some L ->
  compiler_js sourceCodeFile w = (Throw invalid_line_error, w) /\
  optimizing_compiler_js sourceCodeFile w = (Throw invalid_line_error, w) /\
  jit_js sourceCodeFile w = Some (Throw invalid_line_error, w) /\
  (compile (split_crlf sourceCode)).1 = Throw invalid_line_error /\
  (compileOptimized (split_crlf sourceCode)).1 = Throw invalid_line_error /\
  jitRun (split_crlf sourceCode) w = Some (Throw invalid_line_error, w).
Proof.
  intros Hf HL.
  pose proof (compiler_loop_first_invalid _ _ prelude HL) as Hc.
  pose proof (optimizer_loop_first_invalid _ _ (EmptyString, EmptyString) HL)
    as Ho.
  assert (Hj : jitRun (split_crlf sourceCode) w
               = Some (Throw invalid_line_error, w)).
  { unfold jitRun.
    rewrite (forEach_ext _ jit_callback compiler_callback)
      by apply jit_callback_compiler.
    destruct (forEach _ compiler_callback prelude) as [c program].
    simpl in Hc. by subst c. }
  unfold compiler_js, optimizing_compiler_js, jit_js, readFileSync.
  rewrite Hf. unfold compile, compileOptimized.
  destruct (forEach _ compiler_callback prelude) as [c program].
  destruct (forEach _ optimizer_callback _) as [c' [program' s']].
  simpl in Hc, Ho. subst c c'. done.
Qed.

Lemma compilation_all_or_nothing_witness :
  let source := "abc" +:+ String CR (String LF "this-is-invalid") in
  let w := mkWorld ["earlier"] {["./error.qs" := source]} in
  compiler_js "./error.qs" w = (Throw invalid_line_error, w) /\
  optimizing_compiler_js "./error.qs" w = (Throw invalid_line_error, w) /\
  jit_js "./error.qs" w = Some (Throw invalid_line_error, w) /\
  (compile (split_crlf source)).1 = Throw invalid_line_error /\
  (compileOptimized (split_crlf source)).1 = Throw invalid_line_error /\
  jitRun (split_crlf source) w = Some (Throw invalid_line_error, w).
Proof.
  intros source w.
  apply (compilation_all_or_nothing "./error.qs" source 2 w); reflexivity.
Defined.

(** ** The optimizing compiler *)

Lemma fold_prints_expected (lines : list string) (s : string) :
  fold_prints s lines
  = map PrintLiteral (map (fun out => s +:+ out) (expected_prints lines)).
Proof.
  revert s. induction lines as [|line rest IH]; intros s; [done|].
  rewrite expected_prints_cons. unfold payload_of. simpl.
  destruct (classify line) as [|payload| |] eqn:E; simpl; rewrite IH.
  - by rewrite !map_map.
  - rewrite !map_map. apply map_ext. intros out. by rewrite text_app_assoc.
  - by rewrite !map_map, text_app_nil_r.
  - by rewrite !map_map.
Qed.

Lemma optimized_reads_back (lines : list string) :
  valid lines ->
  plain_payloads lines ->
  compileOptimized lines = (Normal, render (fold_prints EmptyString lines)) /\
  parse_program (render (fold_prints EmptyString lines))
  = Parsed (map PrintLiteral (expected_prints lines)).
Proof.
  intros Hv Hp. split; [by apply compileOptimized_valid|].
  rewrite parse_program_print_literals.
  - by rewrite fold_prints_expected, map_app_nil_l.
  - by apply fold_prints_plain.
  - apply fold_prints_literals.
Qed.

(** X16.  For every valid program whose [Emit] payloads contain no single
    quote, no backslash and no line terminator, the text written by the
    optimizing compiler reads as [PrintLiteral] statements only, one for
    each [Print] statement of the program, in order, each carrying the
    payloads of the [Emit] statements before that [Print]: the very lines
    the interpreter prints. *)
Theorem optimized_output_reads_back (lines : list string) (w : World) :
  valid lines ->
  plain_payloads lines ->
  exists program : string,
    compileOptimized lines = (Normal, program) /\
    parse_program program = Parsed (map PrintLiteral (expected_prints lines))
    /\
    length (map PrintLiteral (expected_prints lines)) = count_prints lines /\
    interpret lines w = (Normal, add_output w (expected_prints lines)).
Proof.
  intros Hv Hp. destruct (optimized_reads_back lines Hv Hp) as [H1 H2].
  exists (render (fold_prints EmptyString lines)).
  split; [exact H1|]. split; [exact H2|].
  split; [by rewrite length_map, expected_prints_length|].
  by apply interpret_valid.
Qed.

Lemma optimized_output_reads_back_witness :
  exists program : string,
    compileOptimized ["hello"; "print"; "# note"; " world"; "print"]
    = (Normal, program) /\
    parse_program program
    = Parsed [PrintLiteral "hello"; PrintLiteral "hello world"] /\
    length [PrintLiteral "hello"; PrintLiteral "hello world"]
    = count_prints ["hello"; "print"; "# note"; " world"; "print"] /\
    interpret ["hello"; "print"; "# note"; " world"; "print"] empty_world
    = (Normal, add_output empty_world ["hello"; "hello world"]).
Proof.
  apply (optimized_output_reads_back
           ["hello"; "print"; "# note"; " world"; "print"] empty_world);
    reflexivity.
Defined.

(** C4.  The claim is that the output of the optimizing compiler holds
    [PrintLiteral] statements only, as many as the program has [Print]
    statements; the generator breaks it, because it puts the state between
    single quotes without escaping it.  A payload
    with quotes and line feeds closes the literal and adds statements of
    its own: one [Print] statement, three statements in the output, one of
    them an [AppendLiteral].  The two lines are what [split] makes of a
    source text whose first line holds line feeds without carriage
    return. *)
Lemma optimized_output_counterexample :
  let payload :=
    "')" +:+ nl +:+ "string += 'x'" +:+ nl +:+ "console.log('" in
  let program :=
    "console.log('')" +:+ nl +:+ "string += 'x'" +:+ nl
    +:+ "console.log('')" +:+ nl in
  split_crlf (payload +:+ String CR (String LF "print"))
  = [payload; "print"] /\
  valid [payload; "print"] /\
  classify payload = Emit payload /\
  count_prints [payload; "print"] = 1 /\
  compileOptimized [payload; "print"] = (Normal, program) /\
  parse_program program
  = Parsed [PrintLiteral ""; AppendLiteral "x"; PrintLiteral ""].
Proof. repeat split. Qed.

Lemma fold_prints_no_print (lines : list string) (s : string) :
  no_print lines -> fold_prints s lines = [].
Proof.
  unfold no_print. revert s.
  induction lines as [|line rest IH]; intros s; [done|].
  simpl. intros [Hl Hr]%andb_true_iff.
  destruct (classify line); simpl in *; auto. done.
Qed.

Lemma no_print_count (lines : list string) :
  no_print lines -> count_prints lines = 0.
Proof. intros H. by rewrite <- (fold_prints_length lines EmptyString),
  fold_prints_no_print. Qed.

(** C5.  In a valid program, the statements after the last [Print] leave
    no trace in the output of the optimizing compiler: the text written is
    the text written for the program without them.  For the source lines
    [abc], [print], [def] the output is the single statement
    [console.log('abc')]. *)
Theorem trailing_emits_dropped (pre post : list string) :
  valid (pre ++ post) ->
  no_print post ->
  compileOptimized (pre ++ post) = compileOptimized pre /\
  compileOptimized ["abc"; "print"; "def"]
  = (Normal, render [PrintLiteral "abc"]) /\
  parse_program (render [PrintLiteral "abc"]) = Parsed [PrintLiteral "abc"].
Proof.
  intros [Hpre Hpost]%valid_app Hnp. repeat split.
  unfold compileOptimized.
  rewrite forEach_app, !optimizer_loop_valid by done.
  rewrite (fold_prints_no_print post) by done. simpl.
  by rewrite !text_app_nil_r.
Qed.

Lemma trailing_emits_dropped_witness :
  compileOptimized (["abc"; "print"] ++ ["def"; "# note"; "ghi"])
  = compileOptimized ["abc"; "print"] /\
  compileOptimized ["abc"; "print"; "def"]
  = (Normal, render [PrintLiteral "abc"]) /\
  parse_program (render [PrintLiteral "abc"]) = Parsed [PrintLiteral "abc"].
Proof.
  apply (trailing_emits_dropped ["abc"; "print"] ["def"; "# note"; "ghi"]);
    reflexivity.
Defined.

(** C7.  The claim is that a [Print] statement emits a [PrintLiteral]
    carrying the compile-time state; the generator breaks it, because it
    puts the state between single quotes without escaping it.  When the
    state is the four characters [a\\b] the statement emitted is
    [console.log('a\\b')], which prints the three characters [a\b]; when
    the state is [it's] the text emitted is no statement at all.  (What
    was emitted is not changed by later statements: the line after the
    [Print] below leaves no trace.) *)
Lemma print_literal_snapshot_unescaped :
  payload_text ["a\\b"] = "a\\b" /\
  compileOptimized ["a\\b"; "print"; "c"]
  = (Normal, "console.log('a\\b')" +:+ nl) /\
  parse_program ("console.log('a\\b')" +:+ nl) = Parsed [PrintLiteral "a\b"] /\
  PrintLiteral "a\b" <> PrintLiteral "a\\b" /\
  payload_text ["it's"] = "it's" /\
  compileOptimized ["it's"; "print"; "c"]
  = (Normal, "console.log('it's')" +:+ nl) /\
  parse_program ("console.log('it's')" +:+ nl) = ParseError.
Proof. repeat split; try reflexivity. discriminate. Qed.

Lemma expected_prints_app (l1 l2 : list string) :
  expected_prints (l1 ++ l2)
  = expected_prints l1
    ++ map (fun out => payload_text l1 +:+ out) (expected_prints l2).
Proof.
  induction l1 as [|line l1 IH].
  - simpl. by rewrite map_app_nil_l.
  - rewrite <- app_comm_cons, !expected_prints_cons, IH, payload_text_cons.
    rewrite map_app, map_map, <- app_assoc. do 2 f_equal.
    apply map_ext. intros out. by rewrite text_app_assoc.
Qed.

(** X17.  With plain payloads a [Print] statement is read back from the
    output of the optimizing compiler as a [PrintLiteral] that carries the
    state at that point, the payloads of the [Emit] statements before it;
    the statements that come later add statements after it and change
    neither it nor the ones before it. *)
Theorem print_literal_snapshot_plain
    (before later : list string) (print : string) :
  classify print = Print ->
  valid (before ++ print :: later) ->
  plain_payloads (before ++ print :: later) ->
  exists program : string,
    compileOptimized (before ++ print :: later) = (Normal, program) /\
    parse_program program
    = Parsed (map PrintLiteral (expected_prints before)
              ++ PrintLiteral (payload_text before)
                 :: map PrintLiteral
                      (map (fun out => payload_text before +:+ out)
                         (expected_prints later))).
Proof.
  intros Hc Hv Hp.
  destruct (optimized_reads_back _ Hv Hp) as [H1 H2].
  eexists. split; [exact H1|]. rewrite H2. f_equal.
  rewrite expected_prints_app, expected_prints_cons. unfold payload_of.
  rewrite Hc. simpl.
  rewrite map_app, !map_map, text_app_nil_r. simpl. by rewrite map_map.
Qed.

Lemma print_literal_snapshot_plain_witness :
  exists program : string,
    compileOptimized (["hello"] ++ "print" :: [" world"; "print"; "!"])
    = (Normal, program) /\
    parse_program program
    = Parsed [PrintLiteral "hello"; PrintLiteral "hello world"].
Proof.
  apply (print_literal_snapshot_plain ["hello"] [" world"; "print"; "!"]
           "print"); reflexivity.
Defined.

(** ** The compiler *)

Lemma compiler_js_valid (sourceCodeFile sourceCode : string) (w : World) :
  files w !! sourceCodeFile = Some sourceCode ->
  valid (split_crlf sourceCode) ->
  compiler_js sourceCodeFile w =
  (Normal,
   writeFileSync "./output.js"
     (prelude +:+ render (translate (split_crlf sourceCode))) w).
Proof.
  intros Hf Hv. unfold compiler_js, readFileSync.
  by rewrite Hf, compile_valid.
Qed.

(** C8.  Compiling a valid source is deterministic.  Whatever else the
    world holds, the compiler saves the same text under [./output.js]; and
    compiling once more, in the world the first run left, saves that text
    again and changes nothing. *)
Theorem compiler_deterministic
    (sourceCodeFile sourceCode : string) (w1 w2 : World) :
  files w1 !! sourceCodeFile = Some sourceCode ->
  files w2 !! sourceCodeFile = Some sourceCode ->
  sourceCodeFile <> "./output.js" ->
  valid (split_crlf sourceCode) ->
  exists program : string,
    compile (split_crlf sourceCode) = (Normal, program) /\
    compiler_js sourceCodeFile w1
    = (Normal, writeFileSync "./output.js" program w1) /\
    compiler_js sourceCodeFile w2
    = (Normal, writeFileSync "./output.js" program w2) /\
    files (writeFileSync "./output.js" program w1) !! "./output.js"
    = Some program /\
    files (writeFileSync "./output.js" program w2) !! "./output.js"
    = Some program /\
    compiler_js sourceCodeFile (writeFileSync "./output.js" program w1)
    = (Normal, writeFileSync "./output.js" program w1).
Proof.
  intros H1 H2 Hne Hv.
  exists (prelude +:+ render (translate (split_crlf sourceCode))).
  split; [by apply compile_valid|].
  split; [by apply compiler_js_valid|].
  split; [by apply compiler_js_valid|].
  split; [apply lookup_insert_eq|].
  split; [apply lookup_insert_eq|].
  rewrite (compiler_js_valid _ sourceCode).
  - unfold writeFileSync. simpl. by rewrite insert_insert_eq.
  - simpl. by rewrite lookup_insert_ne.
  - done.
Qed.

Lemma compiler_deterministic_witness :
  let source := "hello" +:+ String CR (String LF "print") in
  let w1 := mkWorld [] {["./hello-world.qs" := source]} in
  let w2 := mkWorld ["earlier"]
              {["./hello-world.qs" := source; "./output.js" := "stale"]} in
  exists program : string,
    compile (split_crlf source) = (Normal, program) /\
    compiler_js "./hello-world.qs" w1
    = (Normal, writeFileSync "./output.js" program w1) /\
    compiler_js "./hello-world.qs" w2
    = (Normal, writeFileSync "./output.js" program w2) /\
    files (writeFileSync "./output.js" program w1) !! "./output.js"
    = Some program /\
    files (writeFileSync "./output.js" program w2) !! "./output.js"
    = Some program /\
    compiler_js "./hello-world.qs" (writeFileSync "./output.js" program w1)
    = (Normal, writeFileSync "./output.js" program w1).
Proof.
  intros source w1 w2.
  apply (compiler_deterministic "./hello-world.qs" source w1 w2);
    [reflexivity|reflexivity|discriminate|reflexivity].
Defined.

Lemma compiler_loop_prefix (lines : list string) (program : string) :
  text_prefix program (forEach lines compiler_callback program).2.
Proof.
  revert program. induction lines as [|line rest IH]; intros program.
  - apply text_prefix_refl.
  - simpl. rewrite compiler_callback_classify.
    destruct (classify line); simpl; try apply IH.
    + eapply text_prefix_trans; [apply text_prefix_app|apply IH].
    + eapply text_prefix_trans; [apply text_prefix_app|apply IH].
    + apply text_prefix_refl.
Qed.

(** C10.  Whatever the source text, a run of the compiler either saves a
    program that begins with the line [let string = ""], or fails on an
    invalid line and saves nothing.  The empty source text is one empty
    line, an [Emit] with an empty payload: compiling it succeeds, and the
    saved program, run by [node], prints nothing. *)
Theorem compiler_output_begins_with_prelude
    (sourceCodeFile sourceCode : string) (w : World) :
  files w !! sourceCodeFile = Some sourceCode ->
  ((exists rest : string,
      compiler_js sourceCodeFile w
      = (Normal, writeFileSync "./output.js" (prelude +:+ rest) w))
   \/ compiler_js sourceCodeFile w = (Throw invalid_line_error, w)) /\
  text_prefix prelude (compile (split_crlf sourceCode)).2 /\
  split_crlf EmptyString = [EmptyString] /\
  classify EmptyString = Emit EmptyString /\
  (sourceCode = EmptyString ->
   compiler_js sourceCodeFile w
   = (Normal,
      writeFileSync "./output.js" (prelude +:+ ("string += ''" +:+ nl)) w) /\
   node "./output.js"
     (writeFileSync "./output.js" (prelude +:+ ("string += ''" +:+ nl)) w)
   = Some (Normal,
       writeFileSync "./output.js" (prelude +:+ ("string += ''" +:+ nl)) w)).
Proof.
  intros Hf.
  split; [|split; [apply compiler_loop_prefix|
                   split; [reflexivity|split; [reflexivity|]]]].
  - destruct (first_invalid (split_crlf sourceCode)) as [L|] eqn:F.
    + right. by apply (compiler_js_first_invalid _ sourceCode L).
    + apply first_invalid_None in F.
      left. exists (render (translate (split_crlf sourceCode))).
      by apply compiler_js_valid.
  - intros ->. split.
    + by rewrite (compiler_js_valid _ EmptyString).
    + rewrite node_written.
      change (prelude +:+ ("string += ''" +:+ nl))
        with (prelude +:+ render (translate [EmptyString])).
      rewrite eval_compiled by reflexivity.
      simpl. by rewrite add_output_nil.
Qed.

Lemma compiler_output_begins_with_prelude_witness :
  let w := mkWorld [] {["./hello-world.qs" := EmptyString]} in
  let saved :=
    writeFileSync "./output.js" (prelude +:+ ("string += ''" +:+ nl)) w in
  files w !! "./hello-world.qs" = Some EmptyString /\
  compiler_js "./hello-world.qs" w = (Normal, saved) /\
  node "./output.js" saved = Some (Normal, saved) /\
  console saved = [].
Proof.
  intros w saved. split; [reflexivity|].
  destruct (compiler_output_begins_with_prelude
              "./hello-world.qs" EmptyString w eq_refl)
    as (_ & _ & _ & _ & H).
  destruct (H eq_refl) as [H1 H2].
  split; [exact H1|]. split; [exact H2|reflexivity].
Defined.

(** ** The interpreter's output *)

Lemma prefix_chain_map (p : string) (l : list string) :
  prefix_chain l -> prefix_chain (map (fun out => p +:+ out) l).
Proof.
  induction l as [|s l IH]; [done|]. simpl. intros [Hs Hl].
  split; [|by apply IH].
  apply List.Forall_map. apply (List.Forall_impl _ (P := text_prefix s));
    [|done].
  intros u [v ->]. exists v. by rewrite text_app_assoc.
Qed.

Lemma expected_prints_chain (lines : list string) :
  prefix_chain (expected_prints lines).
Proof.
  induction lines as [|line rest IH]; [done|].
  rewrite expected_prints_cons.
  destruct (is_print (classify line)); simpl.
  - split; [|by apply prefix_chain_map].
    apply Forall_forall. intros t _. by exists t.
  - by apply prefix_chain_map.
Qed.

(** C9.  On a valid program the interpreter completes normally and the
    lines it prints form a chain for the prefix order: every printed text
    is a prefix of every text printed after it. *)
Theorem interpret_outputs_prefix_chain (lines : list string) (w : World) :
  valid lines ->
  exists out : list string,
    interpret lines w = (Normal, mkWorld (console w ++ out) (files w)) /\
    prefix_chain out /\
    (forall (i j : nat) (s t : string),
       i <= j -> out !! i = Some s -> out !! j = Some t -> text_prefix s t).
Proof.
  intros Hv. exists (expected_prints lines).
  split; [by apply interpret_valid|].
  split; [apply expected_prints_chain|].
  generalize (expected_prints_chain lines).
  generalize (expected_prints lines) as out. clear.
  induction out as [|x out IH]; intros Hc i j s t Hij Hi Hj; [done|].
  destruct Hc as [Hx Hc].
  destruct i as [|i], j as [|j]; simpl in *; try lia.
  - inversion Hi; inversion Hj; subst. apply text_prefix_refl.
  - inversion Hi; subst. by eapply Forall_lookup_1.
  - apply (IH Hc i j); [lia|done|done].
Qed.

Lemma interpret_outputs_prefix_chain_witness :
  exists out : list string,
    interpret ["hello"; "print"; " world"; "print"] empty_world
    = (Normal, mkWorld (console empty_world ++ out) (files empty_world)) /\
    prefix_chain out /\
    (forall (i j : nat) (s t : string),
       i <= j -> out !! i = Some s -> out !! j = Some t -> text_prefix s t).
Proof.
  apply (interpret_outputs_prefix_chain
           ["hello"; "print"; " world"; "print"] empty_world).
  reflexivity.
Defined.

(** ** Classification *)

Lemma classify_kind (line : string) :
  kind (classify line) = kind_of_first (char_at0 line).
Proof.
  unfold classify, kind_of_first.
  by repeat match goal with |- context [if ?b then _ else _] => destruct b end.
Qed.

(** C6.  The kind of a line is a function of its first character alone: a
    line that starts with [#] is a comment, with [p] a print, with [t]
    invalid; a line that starts with any other character is an [Emit]
    whose payload is the whole line, and so is the empty line, with the
    empty payload.  The interpreter and the compiler act on each line
    according to this classification. *)
Theorem classification_by_first_character :
  (forall line : string, kind (classify line) = kind_of_first (char_at0 line))
  /\
  (forall l1 l2 : string,
     char_at0 l1 = char_at0 l2 -> kind (classify l1) = kind (classify l2)) /\
  (forall rest : string, classify (String "#" rest) = Comment) /\
  (forall rest : string, classify (String "p" rest) = Print) /\
  (forall rest : string, classify (String "t" rest) = Invalid) /\
  (forall (c : ascii) (rest : string),
     c <> "#"%char -> c <> "p"%char -> c <> "t"%char ->
     classify (String c rest) = Emit (String c rest)) /\
  classify EmptyString = Emit EmptyString /\
  (forall (line : string) (st : string * World),
     interpreter_callback line st =
     match classify line with
     | Print => (Normal, (st.1, console_log st.1 st.2))
     | Invalid => (Throw invalid_line_error, st)
     | Comment => (Normal, st)
     | Emit payload => (Normal, (st.1 +:+ payload, st.2))
     end) /\
  (forall line program : string,
     compiler_callback line program =
     match classify line with
     | Print => (Normal, program +:+ ("console.log(string)" +:+ nl))
     | Invalid => (Throw invalid_line_error, program)
     | Comment => (Normal, program)
     | Emit payload =>
         (Normal, program +:+ ("string += '" +:+ payload +:+ "'" +:+ nl))
     end).
Proof.
  split; [apply classify_kind|].
  split; [intros l1 l2 H; by rewrite !classify_kind, H|].
  do 3 (split; [reflexivity|]).
  split.
  { intros c rest H1 H2 H3. unfold classify. simpl.
    apply Ascii.eqb_neq in H1, H2, H3. by rewrite H1, H2, H3. }
  split; [reflexivity|].
  split; [apply interpreter_callback_classify|].
  apply compiler_callback_classify.
Qed.

Lemma classification_by_first_character_witness :
  kind (classify "print") = kind (classify "p") /\
  classify "hello" = Emit "hello" /\
  classify " world" = Emit " world".
Proof.
  destruct classification_by_first_character
    as (_ & Hsame & _ & _ & _ & Hemit & _).
  split; [apply Hsame; reflexivity|].
  split; apply Hemit; discriminate.
Defined.

(** * Further properties of the programs *)

(** ** Lines *)

Lemma split_crlf_cons_other (c : ascii) (s : string) :
  (Ascii.eqb c CR
   && match s with
      | String d _ => Ascii.eqb d LF
      | EmptyString => false
      end) = false ->
  split_crlf (String c s) =
  match split_crlf s with
  | piece :: pieces => String c piece :: pieces
  | [] => [String c EmptyString]
  end.
Proof.
  intros H. simpl.
  destruct (Ascii.eqb c CR); [|by destruct s].
  destruct s as [|d s']; [done|]. simpl in H. by rewrite H.
Qed.

Lemma split_crlf_no_separator (s : string) :
  has_crlf s = false -> split_crlf s = [s].
Proof.
  induction s as [|c s IH]; [done|].
  simpl has_crlf. intros [H1 H2]%orb_false_iff.
  rewrite split_crlf_cons_other by done. by rewrite IH.
Qed.

Lemma split_crlf_piece (piece rest : string) :
  has_crlf piece = false ->
  split_crlf (piece +:+ String CR (String LF rest))
  = piece :: split_crlf rest.
Proof.
  induction piece as [|c piece IH]; intros H.
  - reflexivity.
  - simpl has_crlf in H. apply orb_false_iff in H as [H1 H2].
    rewrite text_app_cons, split_crlf_cons_other.
    + by rewrite IH.
    + destruct piece as [|d piece]; [|done].
      rewrite text_app_nil_l. by rewrite andb_false_r.
Qed.

Lemma split_crlf_pieces_free (s : string) :
  Forall (fun piece => has_crlf piece = false) (split_crlf s).
Proof.
  remember (String.length s) as n eqn:Hn. revert s Hn.
  induction n as [n IH] using lt_wf_ind. intros s Hn.
  destruct s as [|c s']; [by repeat constructor|].
  simpl in Hn.
  destruct (Ascii.eqb c CR
            && match s' with
               | String d _ => Ascii.eqb d LF
               | EmptyString => false
               end) eqn:E.
  - apply andb_true_iff in E as [Hc Hd].
    destruct s' as [|d s'']; [done|]. simpl. rewrite Hc, Hd.
    constructor; [done|]. apply (IH (String.length s'')); simpl in *; [lia|done].
  - rewrite split_crlf_cons_other by done.
    pose proof (IH (String.length s') ltac:(lia) s' eq_refl) as Hs.
    destruct (split_crlf s') as [|piece pieces] eqn:Es.
    { by destruct (split_crlf_nonempty s'). }
    inversion Hs as [|? ? Hp Hps]; subst.
    constructor; [|done]. simpl. rewrite Hp, orb_false_r.
    destruct (Ascii.eqb c CR) eqn:Hc; [|done]. simpl in *.
    destruct s' as [|d s'']; [by destruct piece; inversion Es|].
    (* the first character of the piece is the first character of [s'] *)
    destruct (Ascii.eqb d LF) eqn:Hd; [done|].
    destruct (Ascii.eqb d CR
              && match s'' with
                 | String d' _ => Ascii.eqb d' LF
                 | EmptyString => false
                 end) eqn:E2.
    + apply andb_true_iff in E2 as [Hd1 Hd2].
      destruct s'' as [|d' s''']; [done|]. simpl in Es.
      rewrite Hd1, Hd2 in Es. by inversion Es.
    + rewrite split_crlf_cons_other in Es by done.
      destruct (split_crlf s''); inversion Es; subst; simpl; by rewrite Hd.
Qed.

(** X1.  Splitting loses nothing and cuts at every separator: there is
    always at least one piece, no piece holds the separator, and the pieces
    joined by the separator are the source text. *)
Theorem split_crlf_lossless (sourceCode : string) :
  join_crlf (split_crlf sourceCode) = sourceCode /\
  split_crlf sourceCode <> [] /\
  Forall (fun piece => has_crlf piece = false) (split_crlf sourceCode).
Proof.
  split; [apply join_split_crlf|].
  split; [apply split_crlf_nonempty|apply split_crlf_pieces_free].
Qed.

Lemma split_join_crlf (pieces : list string) :
  pieces <> [] ->
  Forall (fun piece => has_crlf piece = false) pieces ->
  split_crlf (join_crlf pieces) = pieces.
Proof.
  induction pieces as [|piece pieces IH]; [done|]. intros _ Hf.
  inversion Hf as [|? ? Hp Hps]; subst.
  destruct pieces as [|p2 pieces].
  - simpl. by apply split_crlf_no_separator.
  - rewrite join_crlf_cons by done.
    rewrite split_crlf_piece by done. f_equal. by apply IH.
Qed.

(** X2.  Lines that hold no separator, joined by the separator, split back
    into the same lines: every list of such lines is the program of some
    source text. *)
Theorem split_crlf_of_lines (lines : list string) :
  lines <> [] ->
  Forall (fun line => has_crlf line = false) lines ->
  split_crlf (join_crlf lines) = lines.
Proof. apply split_join_crlf. Qed.

Lemma split_crlf_of_lines_witness :
  split_crlf (join_crlf ["hello"; "print"; String CR " world"; nl; "print"])
  = ["hello"; "print"; String CR " world"; nl; "print"].
Proof.
  apply (split_crlf_of_lines
           ["hello"; "print"; String CR " world"; nl; "print"]).
  - discriminate.
  - repeat constructor.
Defined.

Lemma join_crlf_snoc (pieces : list string) (piece : string) :
  pieces <> [] ->
  join_crlf (pieces ++ [piece])
  = join_crlf pieces +:+ String CR (String LF piece).
Proof.
  induction pieces as [|p pieces IH]; [done|]. intros _.
  destruct pieces as [|p2 pieces].
  - reflexivity.
  - change (join_crlf (p :: (p2 :: pieces) ++ [piece])
            = join_crlf (p :: p2 :: pieces) +:+ String CR (String LF piece)).
    rewrite (join_crlf_cons p ((p2 :: pieces) ++ [piece])) by done.
    rewrite IH by done.
    rewrite (join_crlf_cons p (p2 :: pieces)) by done.
    by rewrite text_app_assoc.
Qed.

(** Text added after a separator starts a new last line. *)
Lemma split_crlf_append (sourceCode more : string) :
  has_crlf more = false ->
  split_crlf (sourceCode +:+ String CR (String LF more))
  = split_crlf sourceCode ++ [more].
Proof.
  intros Hm.
  rewrite <- (join_split_crlf sourceCode) at 1.
  rewrite <- join_crlf_snoc by apply split_crlf_nonempty.
  apply split_join_crlf.
  - by destruct (split_crlf sourceCode).
  - apply Forall_app. split; [apply split_crlf_pieces_free|by constructor].
Qed.

(** X3.  A source without the two-character separator, for one a file
    whose lines end in a line feed alone, is a single statement however
    many line feeds it holds: the interpreter prints one empty line when
    the text starts with [p], fails when it starts with [t], and prints
    nothing otherwise. *)
Theorem source_without_separator
    (sourceCodeFile sourceCode : string) (w : World) :
  files w !! sourceCodeFile = Some sourceCode ->
  has_crlf sourceCode = false ->
  split_crlf sourceCode = [sourceCode] /\
  interpreter_js sourceCodeFile w =
  match classify sourceCode with
  | Print => (Normal, add_output w [EmptyString])
  | Invalid => (Throw invalid_line_error, w)
  | _ => (Normal, w)
  end.
Proof.
  intros Hf Hs. split; [by apply split_crlf_no_separator|].
  unfold interpreter_js, readFileSync. rewrite Hf.
  rewrite split_crlf_no_separator by done.
  unfold interpret. simpl. rewrite interpreter_callback_classify.
  by destruct (classify sourceCode).
Qed.

Lemma source_without_separator_witness :
  let source := "hello" +:+ nl +:+ "print" +:+ nl in
  let w := mkWorld [] {["./error.qs" := source]} in
  split_crlf source = [source] /\
  interpreter_js "./error.qs" w = (Normal, w).
Proof.
  intros source w.
  apply (source_without_separator "./error.qs" source w); reflexivity.
Defined.

(** ** Comments, empty lines and adjacent payloads *)

Lemma forEach_filter {S : Type} (keep : string -> bool)
    (callback : string -> S -> Completion * S) (lines : list string) (st : S) :
  (forall line st', keep line = false -> callback line st' = (Normal, st')) ->
  forEach (List.filter keep lines) callback st = forEach lines callback st.
Proof.
  intros Hskip. revert st. induction lines as [|line rest IH]; intros st;
    [reflexivity|].
  simpl. destruct (keep line) eqn:K.
  - simpl. destruct (callback line st) as [[|e] st']; [apply IH|reflexivity].
  - rewrite (Hskip line st K). apply IH.
Qed.

Lemma not_kept_is_comment (line : string) :
  negb (is_comment (classify line)) = false -> classify line = Comment.
Proof. by destruct (classify line). Qed.

(** X4.  Comment lines are inert in every program of the repository, valid
    source or not: the interpreter, the compiler, the optimizing compiler
    and the JIT give on a program what they give on the program with its
    comment lines deleted. *)
Theorem comments_are_inert (lines : list string) (w : World) :
  interpret (strip_comments lines) w = interpret lines w /\
  compile (strip_comments lines) = compile lines /\
  compileOptimized (strip_comments lines) = compileOptimized lines /\
  jitRun (strip_comments lines) w = jitRun lines w.
Proof.
  unfold interpret, compile, compileOptimized, jitRun, strip_comments.
  rewrite !forEach_filter; [done|..].
  - intros line st H%not_kept_is_comment.
    change (jit_callback line st) with (compiler_callback line st).
    by rewrite compiler_callback_classify, H.
  - intros line st H%not_kept_is_comment.
    by rewrite optimizer_callback_classify, H.
  - intros line st H%not_kept_is_comment.
    by rewrite compiler_callback_classify, H.
  - intros line st H%not_kept_is_comment.
    by rewrite interpreter_callback_classify, H.
Qed.

Lemma classify_emit_app (a b : string) :
  kind (classify a) = KEmit -> kind (classify b) = KEmit ->
  classify (a +:+ b) = Emit (a +:+ b).
Proof.
  intros Ha Hb. destruct a as [|c a].
  - rewrite text_app_nil_l. destruct (classify b) eqn:E; try done.
    by rewrite (classify_Emit _ _ E).
  - rewrite text_app_cons. unfold classify in *. simpl in *.
    by repeat match goal with
              | H : context [if ?x then _ else _] |- _ => destruct x
              end.
Qed.

Lemma kind_emit_classify (a : string) :
  kind (classify a) = KEmit -> classify a = Emit a.
Proof.
  destruct (classify a) eqn:E; try done. by rewrite (classify_Emit _ _ E).
Qed.

(** X5.  Two [Emit] lines in a row act as the one line made of both: the
    interpreter prints the same and the optimizing compiler writes the same
    text, whatever comes before and after. *)
Theorem adjacent_emits_merge (before after : list string) (a b : string)
    (w : World) :
  kind (classify a) = KEmit ->
  kind (classify b) = KEmit ->
  interpret (before ++ a :: b :: after) w
  = interpret (before ++ (a +:+ b) :: after) w /\
  compileOptimized (before ++ a :: b :: after)
  = compileOptimized (before ++ (a +:+ b) :: after).
Proof.
  intros Ha Hb.
  pose proof (classify_emit_app a b Ha Hb) as Hab.
  apply kind_emit_classify in Ha, Hb.
  unfold interpret, compileOptimized. rewrite !forEach_app.
  split.
  - destruct (forEach before interpreter_callback _) as [[|e] [s w']];
      [|reflexivity].
    simpl. rewrite !interpreter_callback_classify, Ha, Hab. simpl.
    rewrite interpreter_callback_classify, Hb. simpl.
    by rewrite text_app_assoc.
  - destruct (forEach before optimizer_callback _) as [[|e] [program s]];
      [|reflexivity].
    simpl. rewrite !optimizer_callback_classify, Ha, Hab. simpl.
    rewrite optimizer_callback_classify, Hb. simpl.
    by rewrite text_app_assoc.
Qed.

Lemma adjacent_emits_merge_witness :
  interpret (["# greeting"] ++ "hello" :: " world" :: ["print"]) empty_world
  = interpret (["# greeting"] ++ "hello world" :: ["print"]) empty_world /\
  compileOptimized (["# greeting"] ++ "hello" :: " world" :: ["print"])
  = compileOptimized (["# greeting"] ++ "hello world" :: ["print"]).
Proof.
  apply (adjacent_emits_merge ["# greeting"] ["print"] "hello" " world"
           empty_world); reflexivity.
Defined.

(** X6.  A separator at the very end of the source adds one empty last
    line.  The interpreter prints the same with or without it and the
    optimizing compiler writes the same text; the compiler writes one more
    statement, [string += '']. *)
Theorem trailing_separator (sourceCode : string) (w : World) :
  split_crlf (sourceCode +:+ crlf) = split_crlf sourceCode ++ [EmptyString] /\
  interpret (split_crlf (sourceCode +:+ crlf)) w
  = interpret (split_crlf sourceCode) w /\
  compileOptimized (split_crlf (sourceCode +:+ crlf))
  = compileOptimized (split_crlf sourceCode) /\
  compile (split_crlf (sourceCode +:+ crlf)) =
  match compile (split_crlf sourceCode) with
  | (Normal, program) => (Normal, program +:+ ("string += ''" +:+ nl))
  | failed => failed
  end.
Proof.
  assert (Hs : split_crlf (sourceCode +:+ crlf)
               = split_crlf sourceCode ++ [EmptyString])
    by by apply split_crlf_append.
  rewrite Hs. split; [done|].
  unfold interpret, compileOptimized, compile. rewrite !forEach_app.
  split; [|split].
  - destruct (forEach _ interpreter_callback _) as [[|e] [s w']];
      [|reflexivity].
    reflexivity.
  - destruct (forEach _ optimizer_callback _) as [[|e] [program s]];
      [|reflexivity].
    reflexivity.
  - by destruct (forEach _ compiler_callback _) as [[|e] program].
Qed.

(** ** The strategies against each other *)

(** X7.  The optimizing compiler is the interpreter run at compile time:
    for every valid program, with any payloads, the text it writes is one
    [console.log('...')] line for each line the interpreter prints, with
    the printed text between the quotes, in the same order. *)
Theorem optimizer_is_interpretation (lines : list string) (w : World) :
  valid lines ->
  exists out : list string,
    interpret lines w = (Normal, add_output w out) /\
    compileOptimized lines = (Normal, render (map PrintLiteral out)).
Proof.
  intros Hv. exists (expected_prints lines).
  split; [by apply interpret_valid|].
  rewrite compileOptimized_valid by done.
  by rewrite fold_prints_expected, map_app_nil_l.
Qed.

Lemma optimizer_is_interpretation_witness :
  exists out : list string,
    interpret ["it's"; "print"; " a\b"; "print"] empty_world
    = (Normal, add_output empty_world out) /\
    compileOptimized ["it's"; "print"; " a\b"; "print"]
    = (Normal, render (map PrintLiteral out)).
Proof.
  apply (optimizer_is_interpretation
           ["it's"; "print"; " a\b"; "print"] empty_world).
  reflexivity.
Defined.

Lemma translate_strip_comments (lines : list string) :
  valid lines ->
  translate lines
  = map (fun line => if is_print (classify line) then PrintCurrent
                     else AppendLiteral line)
      (strip_comments lines).
Proof.
  induction lines as [|line rest IH]; [done|].
  intros [Hl Hr]%valid_cons. unfold strip_comments in *. simpl.
  destruct (classify line) as [|payload| |] eqn:E; simpl; rewrite ?E; simpl;
    try by rewrite IH.
  rewrite IH by done. by rewrite (classify_Emit _ _ E).
Qed.

(** X8.  The compiler translates line by line: for every valid program the
    text it writes is the declaration of [string] followed by one
    statement for each line that is not a comment, in order,
    [console.log(string)] for a [Print] and [string += '<line>'] for an
    [Emit]; with plain payloads the text reads back as exactly these
    statements. *)
Theorem compiler_one_statement_per_line (lines : list string) :
  valid lines ->
  let body :=
    map (fun line => if is_print (classify line) then PrintCurrent
                     else AppendLiteral line)
      (strip_comments lines) in
  compile lines = (Normal, prelude +:+ render body) /\
  length body = length (strip_comments lines) /\
  (plain_payloads lines ->
   parse_program (prelude +:+ render body) = Parsed (LetString :: body)).
Proof.
  intros Hv body. subst body.
  rewrite <- translate_strip_comments by done.
  split; [by apply compile_valid|].
  split; [by rewrite translate_strip_comments, length_map by done|].
  intros Hp. apply parse_program_prelude. by apply translate_plain.
Qed.

Lemma compiler_one_statement_per_line_witness :
  compile ["# greeting"; "hello"; "print"; ""; "print"]
  = (Normal,
     prelude +:+ render [AppendLiteral "hello"; PrintCurrent;
                         AppendLiteral ""; PrintCurrent]) /\
  parse_program
    (prelude +:+ render [AppendLiteral "hello"; PrintCurrent;
                         AppendLiteral ""; PrintCurrent])
  = Parsed [LetString; AppendLiteral "hello"; PrintCurrent;
            AppendLiteral ""; PrintCurrent].
Proof.
  destruct (compiler_one_statement_per_line
              ["# greeting"; "hello"; "print"; ""; "print"] eq_refl)
    as (H1 & _ & H2).
  split; [exact H1|]. apply H2. reflexivity.
Defined.

Lemma exec_frame (body : list Instruction) (var : option string) :
  exists (c : Completion) (out : list string),
    forall w : World, exec body var w = (c, add_output w out).
Proof.
  revert var. induction body as [|i body IH]; intros var.
  - exists Normal, []. intros w. simpl. by rewrite add_output_nil.
  - destruct i as [|text| |text]; simpl.
    + apply IH.
    + destruct var as [s|]; [apply IH|].
      exists (Throw (ReferenceError "string")), []. intros w.
      by rewrite add_output_nil.
    + destruct var as [s|].
      * destruct (IH (Some s)) as (c & out & H).
        exists c, (s :: out). intros w. rewrite H.
        change (console_log s w) with (add_output w [s]).
        by rewrite add_output_app.
      * exists (Throw (ReferenceError "string")), []. intros w.
        by rewrite add_output_nil.
    + destruct (IH var) as (c & out & H).
      exists c, (text :: out). intros w. rewrite H.
      change (console_log text w) with (add_output w [text]).
      by rewrite add_output_app.
Qed.

(** Running a program text depends on the world through nothing: it adds
    the same lines to any console and leaves the files alone. *)
Lemma eval_frame (program : string) :
  (forall w : World, eval program w = None) \/
  exists (c : Completion) (out : list string),
    forall w : World, eval program w = Some (c, add_output w out).
Proof.
  unfold eval. destruct (parse_program program) as [body| |].
  - right. destruct (exec_frame body None) as (c & out & H).
    exists c, out. intros w. by rewrite H.
  - right. exists (Throw SyntaxError), []. intros w.
    by rewrite add_output_nil.
  - by left.
Qed.

(** X9.  For every valid source on which [jit.js] generates a program
    inside the fragment of JavaScript described here (statements of the
    generated shapes, or a literal certainly left open), [jit.js] ends and
    prints exactly as [node ./output.js] does after [compiler.js]: the
    same completion, a syntax error of the generated text included, and
    the same lines.  Nothing is said of the generated programs outside the
    fragment, where the two runs can differ. *)
Theorem jit_is_compile_then_run
    (sourceCodeFile sourceCode : string) (w r : World) (c : Completion) :
  files w !! sourceCodeFile = Some sourceCode ->
  valid (split_crlf sourceCode) ->
  jit_js sourceCodeFile w = Some (c, r) ->
  exists (program : string) (out : list string),
    compiler_js sourceCodeFile w
    = (Normal, writeFileSync "./output.js" program w) /\
    r = add_output w out /\
    node "./output.js" (writeFileSync "./output.js" program w)
    = Some (c, add_output (writeFileSync "./output.js" program w) out).
Proof.
  intros Hf Hv Hj.
  exists (prelude +:+ render (translate (split_crlf sourceCode))).
  unfold jit_js, readFileSync in Hj. rewrite Hf in Hj. unfold jitRun in Hj.
  rewrite (forEach_ext _ jit_callback compiler_callback) in Hj
    by apply jit_callback_compiler.
  rewrite compiler_loop_valid in Hj by done.
  destruct (eval_frame (prelude +:+ render (translate (split_crlf sourceCode))))
    as [Hn|(c' & out & H)].
  - by rewrite Hn in Hj.
  - rewrite H in Hj. inversion Hj; subst. exists out.
    split; [by apply compiler_js_valid|]. split; [done|].
    by rewrite node_written, H.
Qed.

Lemma jit_is_compile_then_run_witness :
  let source := "it's" +:+ crlf +:+ "print" in
  let w := mkWorld ["earlier"] {["./error.qs" := source]} in
  jit_js "./error.qs" w = Some (Throw SyntaxError, w) /\
  exists (program : string) (out : list string),
    compiler_js "./error.qs" w
    = (Normal, writeFileSync "./output.js" program w) /\
    w = add_output w out /\
    node "./output.js" (writeFileSync "./output.js" program w)
    = Some (Throw SyntaxError,
            add_output (writeFileSync "./output.js" program w) out).
Proof.
  intros source w. split; [reflexivity|].
  apply (jit_is_compile_then_run "./error.qs" source w w (Throw SyntaxError));
    reflexivity.
Defined.

(** ** The interpreter on any program *)

Lemma valid_prefix_valid (lines : list string) : valid (valid_prefix lines).
Proof.
  induction lines as [|line rest IH]; [done|]. simpl.
  destruct (is_invalid (classify line)) eqn:E; [done|].
  apply valid_cons. split; [|done]. intros H. by rewrite H in E.
Qed.

Lemma count_prints_valid_prefix (lines : list string) :
  count_prints (valid_prefix lines) <= count_prints lines.
Proof.
  induction lines as [|line rest IH]; [done|].
  unfold count_prints in *. simpl.
  destruct (classify line) eqn:E; simpl; rewrite ?E; simpl; lia.
Qed.

Lemma interpreter_loop_general (lines : list string) (s : string) (w : World) :
  forEach lines interpreter_callback (s, w) =
  (match first_invalid lines with
   | None => Normal
   | Some _ => Throw invalid_line_error
   end,
   (s +:+ payload_text (valid_prefix lines),
    add_output w
      (map (fun out => s +:+ out) (expected_prints (valid_prefix lines))))).
Proof.
  revert s w. induction lines as [|line rest IH]; intros s w.
  - simpl. by rewrite text_app_nil_r, add_output_nil.
  - cbn [valid_prefix first_invalid forEach].
    rewrite interpreter_callback_classify.
    destruct (classify line) as [|payload| |] eqn:E; cbn [is_invalid].
    + rewrite IH, expected_prints_cons, payload_text_cons.
      unfold payload_of. rewrite E. simpl. rewrite map_map.
      by destruct (first_invalid rest).
    + rewrite IH, expected_prints_cons, payload_text_cons.
      unfold payload_of. rewrite E. simpl. rewrite map_map, text_app_assoc.
      destruct (first_invalid rest); simpl; do 3 f_equal;
        apply map_ext; intros out; apply text_app_assoc.
    + rewrite IH, expected_prints_cons, payload_text_cons.
      unfold payload_of. rewrite E. simpl.
      change (console_log s w) with (add_output w [s]).
      rewrite add_output_app, map_map, text_app_nil_r.
      by destruct (first_invalid rest).
    + simpl. by rewrite text_app_nil_r, add_output_nil.
Qed.

(** X10.  On every program, valid or not, the interpreter only adds lines
    to the console and leaves the files alone; it prints one line for each
    [Print] statement before the first invalid line, never more lines than
    the program has [Print] statements, and every line it prints is a
    prefix of the lines it prints later. *)
Theorem interpret_appends_only (lines : list string) (w : World) :
  exists out : list string,
    (interpret lines w).2 = mkWorld (console w ++ out) (files w) /\
    length out = count_prints (valid_prefix lines) /\
    length out <= count_prints lines /\
    prefix_chain out.
Proof.
  exists (expected_prints (valid_prefix lines)).
  unfold interpret. rewrite interpreter_loop_general. simpl.
  rewrite map_app_nil_l, expected_prints_length.
  split; [done|]. split; [done|].
  split; [apply count_prints_valid_prefix|apply expected_prints_chain].
Qed.

Lemma forEach_stops {S : Type} (pre post : list string) (bad : string)
    (callback : string -> S -> Completion * S) (st : S) :
  (forall st', exists e, callback bad st' = (Throw e, st')) ->
  forEach (pre ++ bad :: post) callback st
  = forEach (pre ++ [bad]) callback st.
Proof.
  intros Hbad. rewrite !forEach_app.
  destruct (forEach pre callback st) as [[|e] st']; [|reflexivity].
  simpl. destruct (Hbad st') as [e ->]. reflexivity.
Qed.

(** X11.  Nothing after an invalid line is ever looked at: the
    interpreter, the compiler, the optimizing compiler and the JIT give on
    a program with an invalid line what they give on the program cut
    after that line. *)
Theorem nothing_after_invalid_line
    (pre post : list string) (bad : string) (w : World) :
  classify bad = Invalid ->
  interpret (pre ++ bad :: post) w = interpret (pre ++ [bad]) w /\
  compile (pre ++ bad :: post) = compile (pre ++ [bad]) /\
  compileOptimized (pre ++ bad :: post) = compileOptimized (pre ++ [bad]) /\
  jitRun (pre ++ bad :: post) w = jitRun (pre ++ [bad]) w.
Proof.
  intros Hb.
  unfold interpret, compile, compileOptimized, jitRun.
  rewrite !(forEach_stops pre post bad); [done|..].
  - intros st. exists invalid_line_error.
    change (jit_callback bad st) with (compiler_callback bad st).
    by rewrite compiler_callback_classify, Hb.
  - intros st. exists invalid_line_error.
    by rewrite optimizer_callback_classify, Hb.
  - intros st. exists invalid_line_error.
    by rewrite compiler_callback_classify, Hb.
  - intros st. exists invalid_line_error.
    by rewrite interpreter_callback_classify, Hb.
Qed.

Lemma nothing_after_invalid_line_witness :
  interpret (["hello"; "print"] ++ "this" :: ["print"; "that"]) empty_world
  = interpret (["hello"; "print"] ++ ["this"]) empty_world /\
  compile (["hello"; "print"] ++ "this" :: ["print"; "that"])
  = compile (["hello"; "print"] ++ ["this"]) /\
  compileOptimized (["hello"; "print"] ++ "this" :: ["print"; "that"])
  = compileOptimized (["hello"; "print"] ++ ["this"]) /\
  jitRun (["hello"; "print"] ++ "this" :: ["print"; "that"]) empty_world
  = jitRun (["hello"; "print"] ++ ["this"]) empty_world.
Proof.
  apply (nothing_after_invalid_line
           ["hello"; "print"] ["print"; "that"] "this" empty_world).
  reflexivity.
Defined.

(** ** The compiler on concatenated programs *)

Lemma translate_app (l1 l2 : list string) :
  translate (l1 ++ l2) = translate l1 ++ translate l2.
Proof.
  induction l1 as [|line l1 IH]; [done|]. simpl.
  destruct (classify line); simpl; by rewrite IH.
Qed.

Lemma render_app (b1 b2 : list Instruction) :
  render (b1 ++ b2) = render b1 +:+ render b2.
Proof.
  induction b1 as [|i b1 IH]; [done|]. simpl.
  by rewrite IH, text_app_assoc.
Qed.

(** X12.  The compiler works line by line without memory: the text it
    writes for two valid programs put one after the other is the
    declaration of [string] followed by what it writes after the
    declaration for the first and then for the second. *)
Theorem compile_concatenation (l1 l2 : list string) :
  valid l1 ->
  valid l2 ->
  exists b1 b2 : string,
    compile l1 = (Normal, prelude +:+ b1) /\
    compile l2 = (Normal, prelude +:+ b2) /\
    compile (l1 ++ l2) = (Normal, prelude +:+ (b1 +:+ b2)).
Proof.
  intros H1 H2.
  exists (render (translate l1)), (render (translate l2)).
  rewrite !compile_valid; [|by apply valid_app|done|done].
  by rewrite translate_app, render_app.
Qed.

Lemma compile_concatenation_witness :
  exists b1 b2 : string,
    compile ["hello"; "print"] = (Normal, prelude +:+ b1) /\
    compile [" world"; "print"] = (Normal, prelude +:+ b2) /\
    compile (["hello"; "print"] ++ [" world"; "print"])
    = (Normal, prelude +:+ (b1 +:+ b2)).
Proof.
  apply (compile_concatenation ["hello"; "print"] [" world"; "print"]);
    reflexivity.
Defined.

(** ** The first interpreter of the README *)

Lemma readme_callback_agrees (line : string) (st : string * World) :
  match classify line with Emit _ | Print => true | _ => false end = true ->
  readme_interpreter_callback line st = interpreter_callback line st.
Proof.
  unfold readme_interpreter_callback, interpreter_callback, classify.
  by repeat match goal with |- context [if ?b then _ else _] => destruct b end.
Qed.

Lemma readme_loop_agrees (lines : list string) (st : string * World) :
  emit_or_print lines ->
  forEach lines readme_interpreter_callback st
  = forEach lines interpreter_callback st.
Proof.
  unfold emit_or_print. revert st.
  induction lines as [|line rest IH]; intros st; [done|].
  simpl. intros [Hl Hr]%andb_true_iff.
  rewrite readme_callback_agrees by done.
  destruct (interpreter_callback line st) as [[|e] st']; [by apply IH|done].
Qed.

Lemma readme_loop_normal (lines : list string) (st : string * World) :
  (forEach lines readme_interpreter_callback st).1 = Normal.
Proof.
  revert st. induction lines as [|line rest IH]; intros st; [done|].
  simpl. unfold readme_interpreter_callback at 1.
  destruct (loose_eq (char_at0 line) "p"); apply IH.
Qed.

(** X13.  The first interpreter shown in the README never fails, whatever
    the program, lines that start with [t] or [#] included; and on a
    program made of [Emit] and [Print] statements only it does exactly
    what the interpreter does. *)
Theorem readme_interpreter_agrees (lines : list string) (w : World) :
  (readme_interpret lines w).1 = Normal /\
  (emit_or_print lines -> readme_interpret lines w = interpret lines w).
Proof.
  split; [apply readme_loop_normal|].
  intros H. unfold readme_interpret, interpret. by rewrite readme_loop_agrees.
Qed.

Lemma readme_interpreter_agrees_witness :
  (readme_interpret ["# note"; "this"; "print"] empty_world).1 = Normal /\
  (interpret ["# note"; "this"; "print"] empty_world).1
  = Throw invalid_line_error /\
  readme_interpret ["hello"; "print"; " world"; "print"] empty_world
  = interpret ["hello"; "print"; " world"; "print"] empty_world.
Proof.
  split; [apply (readme_interpreter_agrees
                   ["# note"; "this"; "print"] empty_world)|].
  split; [reflexivity|].
  apply (readme_interpreter_agrees
           ["hello"; "print"; " world"; "print"] empty_world).
  reflexivity.
Defined.

(** ** The two compilers side by side *)

Lemma optimizing_compiler_js_valid
    (sourceCodeFile sourceCode : string) (w : World) :
  files w !! sourceCodeFile = Some sourceCode ->
  valid (split_crlf sourceCode) ->
  optimizing_compiler_js sourceCodeFile w =
  (Normal,
   writeFileSync "./optimized-output.js"
     (render (fold_prints EmptyString (split_crlf sourceCode))) w).
Proof.
  intros Hf Hv. unfold optimizing_compiler_js, readFileSync.
  by rewrite Hf, compileOptimized_valid.
Qed.

(** X14.  The compiler and the optimizing compiler do not disturb each
    other: run on the same valid source one after the other, in either
    order, they leave the same world, with the compiler's text under
    [./output.js], the optimizing compiler's text under
    [./optimized-output.js], the console and every other file as they
    were. *)
Theorem compilers_commute
    (sourceCodeFile sourceCode : string) (w : World) :
  files w !! sourceCodeFile = Some sourceCode ->
  sourceCodeFile <> "./output.js" ->
  sourceCodeFile <> "./optimized-output.js" ->
  valid (split_crlf sourceCode) ->
  exists program optimized : string,
    compile (split_crlf sourceCode) = (Normal, program) /\
    compileOptimized (split_crlf sourceCode) = (Normal, optimized) /\
    optimizing_compiler_js sourceCodeFile (compiler_js sourceCodeFile w).2
    = (Normal,
       mkWorld (console w)
         (<["./optimized-output.js" := optimized]>
            (<["./output.js" := program]> (files w)))) /\
    compiler_js sourceCodeFile (optimizing_compiler_js sourceCodeFile w).2
    = optimizing_compiler_js sourceCodeFile (compiler_js sourceCodeFile w).2.
Proof.
  intros Hf H1 H2 Hv.
  exists (prelude +:+ render (translate (split_crlf sourceCode))),
    (render (fold_prints EmptyString (split_crlf sourceCode))).
  split; [by apply compile_valid|].
  split; [by apply compileOptimized_valid|].
  rewrite (compiler_js_valid _ sourceCode w) by done.
  rewrite (optimizing_compiler_js_valid _ sourceCode w) by done.
  cbn [snd].
  rewrite (optimizing_compiler_js_valid _ sourceCode);
    [|by simpl; rewrite lookup_insert_ne|done].
  rewrite (compiler_js_valid _ sourceCode);
    [|by simpl; rewrite lookup_insert_ne|done].
  split; [done|].
  unfold writeFileSync. simpl. f_equal. f_equal.
  by apply insert_insert_ne.
Qed.

Lemma compilers_commute_witness :
  let source := "hello" +:+ crlf +:+ "print" in
  let w := mkWorld ["earlier"] {["./hello-world.qs" := source]} in
  exists program optimized : string,
    compile (split_crlf source) = (Normal, program) /\
    compileOptimized (split_crlf source) = (Normal, optimized) /\
    optimizing_compiler_js "./hello-world.qs"
      (compiler_js "./hello-world.qs" w).2
    = (Normal,
       mkWorld (console w)
         (<["./optimized-output.js" := optimized]>
            (<["./output.js" := program]> (files w)))) /\
    compiler_js "./hello-world.qs"
      (optimizing_compiler_js "./hello-world.qs" w).2
    = optimizing_compiler_js "./hello-world.qs"
        (compiler_js "./hello-world.qs" w).2.
Proof.
  intros source w.
  apply (compilers_commute "./hello-world.qs" source w);
    [reflexivity|discriminate|discriminate|reflexivity].
Defined.
